(** * trio/_core/_multierror.py: MultiError, its filter, its catcher and its
      traceback formatting, as a shallow embedding.

    Python objects are reference-identified and some of their attributes are
    mutated in place.  The embedding keeps both:

    - every object carries the address [id(obj)] it lives at;  [a is b] is
      equality of addresses;
    - the attributes the module assigns to ([__traceback__], [__context__])
      and those its traceback formatting follows ([__cause__],
      [__suppress_context__]) live in a [heap] keyed by address, so that
      two references to one object see the same attribute;
    - the attribute [exceptions] of a [MultiError] is assigned once, in
      [__init__], and never again: it is part of the value;
    - allocation takes the next free address of the heap. *)

From stdpp Require Import gmap list strings.
From Stdlib Require Import ZArith.

#[local] Set Warnings "-register-all,-clear-no-such-hyp".

Open Scope Z_scope.
Open Scope nat_scope.

(** ** Objects *)

Abbreviation oid := nat (only parsing).

(** One traceback entry: [tb_frame], [tb_lasti], [tb_lineno]. *)
Record tb_entry := TbEntry {
  tb_frame : nat;
  tb_lasti : Z;
  tb_lineno : Z
}.

(** A traceback object at address [tb_id], linked through [tb_next]
    ([None] is Python's [None], the C level's NULL). *)
Inductive traceback : Type :=
| Tb (tb_id : oid) (entry : tb_entry) (tb_next : option traceback).

Definition tb_entry_of (t : traceback) : tb_entry := let 'Tb _ e _ := t in e.
Definition tb_next (t : traceback) : option traceback := let 'Tb _ _ n := t in n.

(** An exception object: an atomic exception, or a [MultiError] with its
    [exceptions] list. *)
Inductive exc : Type :=
| Atomic (id : oid)
| MultiError (id : oid) (exceptions : list exc).

Definition id_of (e : exc) : oid :=
  match e with Atomic i => i | MultiError i _ => i end.

(** [isinstance(exc, MultiError)] *)
Definition is_MultiError (e : exc) : bool :=
  match e with Atomic _ => false | MultiError _ _ => true end.

(** [a is b] *)
Definition is_ (a b : exc) : bool := bool_decide (id_of a = id_of b).

(** [a is b] where either side may be [None]. *)
Definition opt_is (a b : option exc) : bool :=
  match a, b with
  | Some x, Some y => is_ x y
  | None, None => true
  | _, _ => false
  end.

(** A value handed to the constructor: an exception, or any other object
    (known by its [repr]). *)
Inductive pyval : Type :=
| VExc (e : exc)
| VOther (repr : string).

(** ** The heap *)

Record heap := Heap {
  h_traceback : gmap nat traceback;   (* exc.__traceback__; absent is None *)
  h_context : gmap nat exc;           (* exc.__context__;   absent is None *)
  h_cause : gmap nat exc;             (* exc.__cause__;     absent is None *)
  h_suppress : gset nat;              (* exc.__suppress_context__ is True *)
  h_next : nat;                       (* the next free address *)
  h_calls : list exc                  (* ghost: the arguments the handler was
                                         called with, oldest first *)
}.

Definition get_traceback (h : heap) (e : exc) : option traceback :=
  h_traceback h !! id_of e.

(** [exc.__traceback__ = tb] *)
Definition set_traceback (e : exc) (tb : option traceback) (h : heap) : heap :=
  Heap (match tb with
        | Some t => <[id_of e := t]> (h_traceback h)
        | None => delete (id_of e) (h_traceback h)
        end)
       (h_context h) (h_cause h) (h_suppress h) (h_next h) (h_calls h).

Definition get_context (h : heap) (e : exc) : option exc :=
  h_context h !! id_of e.

(** [exc.__context__ = c] *)
Definition set_context (e : exc) (c : option exc) (h : heap) : heap :=
  Heap (h_traceback h)
       (match c with
        | Some x => <[id_of e := x]> (h_context h)
        | None => delete (id_of e) (h_context h)
        end)
       (h_cause h) (h_suppress h) (h_next h) (h_calls h).

Definition get_cause (h : heap) (e : exc) : option exc :=
  h_cause h !! id_of e.

(** Taking a fresh address. *)
Definition alloc (h : heap) : oid * heap :=
  (h_next h,
   Heap (h_traceback h) (h_context h) (h_cause h) (h_suppress h)
        (S (h_next h)) (h_calls h)).

(** Ghost: record one call of the handler. *)
Definition log_call (e : exc) (h : heap) : heap :=
  Heap (h_traceback h) (h_context h) (h_cause h) (h_suppress h) (h_next h)
       (h_calls h ++ [e]).

(** ** concat_tb *)

(** [copy_tb(base_tb, tb_next)]: a new traceback object with the frame,
    [tb_lasti] and [tb_lineno] of [base_tb] and the given [tb_next].  The
    ctypes version and the tproxy version agree on this. *)
Definition copy_tb (base_tb : traceback) (next : option traceback) (h : heap)
  : traceback * heap :=
  let '(a, h') := alloc h in
  (Tb a (tb_entry_of base_tb) next, h').

(** The [while pointer is not None] loop: the objects of the chain, from
    [head] on. *)
Fixpoint tbs_from (pointer : traceback) : list traceback :=
  pointer :: match tb_next pointer with
             | None => []
             | Some next => tbs_from next
             end.

Definition head_tbs_from (pointer : option traceback) : list traceback :=
  match pointer with
  | None => []
  | Some t => tbs_from t
  end.

(** The [for head_tb in reversed(head_tbs)] loop. *)
Fixpoint copy_loop (tbs : list traceback) (current_head : option traceback)
    (h : heap) : option traceback * heap :=
  match tbs with
  | [] => (current_head, h)
  | head_tb :: rest =>
      let '(t, h') := copy_tb head_tb current_head h in
      copy_loop rest (Some t) h'
  end.

Definition concat_tb (head tail : option traceback) (h : heap)
  : option traceback * heap :=
  let head_tbs := head_tbs_from head in
  copy_loop (reverse head_tbs) tail h.

(** The frame sequence of a chain, outermost first. *)
Definition frames (tb : option traceback) : list tb_entry :=
  tb_entry_of <$> head_tbs_from tb.

(** ** MultiError.__new__ / __init__ *)

Inductive py_error : Type :=
| TypeError (msg_arg : string).

Inductive result (A : Type) : Type :=
| Ok (a : A)
| Raise (err : py_error).
Arguments Ok {A} a.
Arguments Raise {A} err.

(** The [for exc in exceptions: if not isinstance(exc, BaseException)] loop:
    the first offender raises. *)
Fixpoint check_exceptions (vs : list pyval) : result (list exc) :=
  match vs with
  | [] => Ok []
  | VOther r :: _ => Raise (TypeError r)
  | VExc e :: rest =>
      match check_exceptions rest with
      | Ok es => Ok (e :: es)
      | Raise err => Raise err
      end
  end.

(** [MultiError(exceptions)] on exception objects: [__new__] followed by
    the implicit [__init__].  For one element, [__new__] returns that
    element and [__init__] leaves it alone (it either is no [MultiError], or
    has its attribute already); otherwise a new object is allocated and
    [__init__] stores the list. *)
Definition MultiError_of (exceptions : list exc) (h : heap) : exc * heap :=
  match exceptions with
  | [e] => (e, h)
  | _ => let '(a, h') := alloc h in (MultiError a exceptions, h')
  end.

Definition MultiError_new (exceptions : list pyval) (h : heap)
  : result exc * heap :=
  match check_exceptions exceptions with
  | Raise err => (Raise err, h)
  | Ok es => let '(e, h') := MultiError_of es h in (Ok e, h')
  end.

(** ** _filter_impl *)

(** The handler is a function from an atomic exception to an exception or
    [None]; a handler that raises is outside this model. *)
Section Filter.
Variable handler : exc -> option exc.

(** The [for child_exc in exc.exceptions] loop of [filter_tree], over the
    recursive call [filter_tree]. *)
Definition filter_children
    (filter_tree : exc -> gset nat -> heap -> option exc * gset nat * heap) :=
  fix loop (children new_exceptions : list exc) (changed : bool)
      (preserved : gset nat) (h : heap) {struct children}
    : list exc * bool * gset nat * heap :=
    match children with
    | [] => (new_exceptions, changed, preserved, h)
    | child_exc :: rest =>
        let '(new_child_exc, preserved, h) := filter_tree child_exc preserved h in
        let changed :=
          if opt_is new_child_exc (Some child_exc) then changed else true in
        let new_exceptions :=
          match new_child_exc with
          | Some x => new_exceptions ++ [x]
          | None => new_exceptions
          end in
        loop rest new_exceptions changed preserved h
    end.

(** [filter_tree(exc, preserved)]; [preserved] is the set shared by all
    the calls, threaded through.  [MultiError(new_exceptions)] is applied
    to exception objects only, so its type check passes. *)
Fixpoint filter_tree (e : exc) (preserved : gset nat) (h : heap)
  : option exc * gset nat * heap :=
  match e with
  | MultiError _ exceptions =>
      let '(new_exceptions, changed, preserved, h) :=
        filter_children filter_tree exceptions [] false preserved h in
      match new_exceptions with
      | [] => (None, preserved, h)
      | _ :: _ =>
          if changed then
            let '(m, h) := MultiError_of new_exceptions h in
            (Some m, preserved, h)
          else (Some e, {[id_of e]} ∪ preserved, h)
      end
  | Atomic _ =>
      let new_exc := handler e in
      let h := log_call e h in
      match new_exc with
      | Some n =>
          if is_ n e then (new_exc, preserved, h)
          else (new_exc, preserved, set_context n (Some e) h)
      | None => (None, preserved, h)
      end
  end.

(** The [for child_exc in exc.exceptions] loop of [push_tb_down]. *)
Definition push_children
    (push_tb_down : option traceback -> exc -> gset nat -> heap -> heap)
    (new_tb : option traceback) (preserved : gset nat) :=
  fix loop (children : list exc) (h : heap) {struct children} : heap :=
    match children with
    | [] => h
    | child_exc :: rest => loop rest (push_tb_down new_tb child_exc preserved h)
    end.

Fixpoint push_tb_down (tb : option traceback) (e : exc)
    (preserved : gset nat) (h : heap) : heap :=
  if decide (id_of e ∈ preserved) then h
  else
    let '(new_tb, h) := concat_tb tb (get_traceback h e) h in
    match e with
    | MultiError _ exceptions =>
        let h := push_children push_tb_down new_tb preserved exceptions h in
        set_traceback e None h
    | Atomic _ => set_traceback e new_tb h
    end.

Definition _filter_impl (root_exc : exc) (h : heap) : option exc * heap :=
  let preserved : gset nat := ∅ in
  let '(new_root_exc, preserved, h) := filter_tree root_exc preserved h in
  let h := push_tb_down None root_exc preserved h in
  (new_root_exc, h).

(** [MultiError.filter(handler, root_exc)] *)
Definition MultiError_filter := _filter_impl.

End Filter.

(** ** MultiErrorCatcher *)

(** What [__exit__] hands back to the [with] statement: a return value
    ([None], [False] or [True]) or an exception raised out of it. *)
Inductive exit_result : Type :=
| ExitReturn (v : option bool)
| ExitRaise (e : exc).

Section Catcher.
Variable handler : exc -> option exc.

(** What the interpreter does to the heap when [raise filtered_exc] runs
    while [exc] is being handled, up to the [finally] block.  The catcher
    is written not to depend on it. *)
Variable raise_bookkeeping : exc -> exc -> heap -> heap.

Definition __exit__ (exc_ : option exc) (h : heap) : exit_result * heap :=
  match exc_ with
  | None => (ExitReturn None, h)
  | Some e =>
      let '(filtered_exc, h) := MultiError_filter handler e h in
      if opt_is filtered_exc (Some e) then (ExitReturn (Some false), h)
      else
        match filtered_exc with
        | None => (ExitReturn (Some true), h)
        | Some f =>
            let old_context := get_context h f in
            let h := raise_bookkeeping f e h in
            (* finally: sys.exc_info() gives filtered_exc *)
            let value := f in
            let h := set_context value old_context h in
            (ExitRaise f, h)
        end
  end.

(** The end of a [with MultiError.catch(handler):] block whose body raised
    [e]: a true return value swallows [e], any other return value lets it
    go on, an exception raised by [__exit__] replaces it. *)
Inductive outcome : Type :=
| Completes
| Propagates (e : exc).

Definition with_exit (e : exc) (h : heap) : outcome * heap :=
  match __exit__ (Some e) h with
  | (ExitReturn (Some true), h) => (Completes, h)
  | (ExitReturn _, h) => (Propagates e, h)
  | (ExitRaise f, h) => (Propagates f, h)
  end.
End Catcher.

(** The interpreter's [raise] as CPython does it: the raised exception gets
    the handled one as [__context__], and a traceback entry for the raising
    frame in front of its traceback. *)
Definition cpython_raise (here : tb_entry) (raised handled : exc) (h : heap)
  : heap :=
  let h := set_context raised (Some handled) h in
  let '(a, h) := alloc h in
  set_traceback raised (Some (Tb a here (get_traceback h raised))) h.

(** ** Traceback formatting *)

(** A [traceback.TracebackException] with the [embedded] attribute the
    module adds. *)
Inductive TracebackException : Type :=
| TE (exc_value : exc) (stack : list tb_entry)
     (cause context : option TracebackException) (suppress_context : bool)
     (embedded : list TracebackException).

Definition te_exc (te : TracebackException) : exc :=
  let 'TE e _ _ _ _ _ := te in e.
Definition te_embedded (te : TracebackException) : list TracebackException :=
  let 'TE _ _ _ _ _ l := te in l.

(** The [for exc in exc_value.exceptions] loop of [traceback_exception_init];
    [from_exception] is the constructor being defined. *)
Definition embed_children
    (from_exception : exc -> option (gset nat) ->
                      option (TracebackException * gset nat))
    (_seen : gset nat) (seen_was_none : bool) :=
  fix loop (exceptions : list exc) : option (list TracebackException) :=
    match exceptions with
    | [] => Some []
    | e :: rest =>
        if decide (id_of e ∈ _seen) then loop rest
        else
          '(te, _) ← from_exception e
                       (if seen_was_none then None else Some _seen);
          tes ← loop rest;
          Some (te :: tes)
    end.

(** One link ([__cause__] or [__context__]) as the standard library's
    [TracebackException.__init__] captures it: skipped when its target is
    in [_seen], otherwise built with the same set object. *)
Definition capture_link
    (init : exc -> option (gset nat) -> option (TracebackException * gset nat))
    (link : option exc) (_seen : gset nat)
  : option (option TracebackException * gset nat) :=
  match link with
  | None => Some (None, _seen)
  | Some c =>
      if decide (id_of c ∈ _seen) then Some (None, _seen)
      else '(te, s) ← init c (Some _seen); Some (Some te, s)
  end.

(** [traceback_exception_init], the replacement of
    [TracebackException.__init__].  It starts with the standard library's
    original (CPython 3.6 to 3.9, not part of this module): [_seen] defaults
    to a new set, gets [id(exc_value)], and is shared with the captures of
    [__cause__] and [__context__], whose constructor is again this
    function.  The second component of the result is the state of that set
    object when the function returns; a caller that passed [None] has no
    reference to it.  The recursion follows links of the heap, so it is
    bounded by [fuel]. *)
Fixpoint traceback_exception_init (fuel : nat) (h : heap) (exc_value : exc)
    (_seen : option (gset nat)) {struct fuel}
  : option (TracebackException * gset nat) :=
  match fuel with
  | 0 => None
  | S fuel =>
      let init := traceback_exception_init fuel h in
      (* traceback_exception_original_init *)
      let seen0 :=
        {[id_of exc_value]} ∪ match _seen with Some s => s | None => ∅ end in
      '(cause, seen1) ← capture_link init (get_cause h exc_value) seen0;
      '(context, seen2) ← capture_link init (get_context h exc_value) seen1;
      (* the module's own part *)
      let seen_was_none := match _seen with None => true | Some _ => false end in
      let seen := if seen_was_none then ∅ else seen2 in
      embedded ← match exc_value with
                 | MultiError _ exceptions =>
                     embed_children init seen seen_was_none exceptions
                 | Atomic _ => Some []
                 end;
      Some (TE exc_value (frames (get_traceback h exc_value)) cause context
               (bool_decide (id_of exc_value ∈ h_suppress h)) embedded,
            seen2)
  end.

(** The chunks a [format] generator yields. *)
Inductive chunk : Type :=
| CauseMessage                      (* "The above exception was the direct cause ..." *)
| ContextMessage                    (* "During handling of the above exception ..." *)
| TracebackHeader                   (* "Traceback (most recent call last):" *)
| StackLine (entry : tb_entry)
| ExceptionOnly (e : exc)           (* the "Type: message" description of [e] *)
| EmbeddedHeader (n : nat)          (* "Details of embedded exception n:" *)
| Indent (c : chunk).               (* textwrap.indent(c, "  ") *)

(** The [for i, exc in enumerate(self.embedded)] loop of
    [traceback_exception_format]. *)
Definition format_embedded (format : TracebackException -> list chunk) :=
  fix loop (i : nat) (embedded : list TracebackException) : list chunk :=
    match embedded with
    | [] => []
    | te :: rest =>
        EmbeddedHeader (i + 1) :: (Indent <$> format te) ++ loop (S i) rest
    end.

(** [traceback_exception_format]: the standard library's original
    [format] (the chain, the stack, the description), whose recursive calls
    come back here, then the embedded exceptions. *)
Fixpoint traceback_exception_format (chain : bool) (te : TracebackException)
  : list chunk :=
  let 'TE e stack cause context suppress_context embedded := te in
  (* traceback_exception_original_format *)
  (if chain then
     match cause with
     | Some c => traceback_exception_format chain c ++ [CauseMessage]
     | None =>
         match context with
         | Some c =>
             if suppress_context then []
             else traceback_exception_format chain c ++ [ContextMessage]
         | None => []
         end
     end
   else [])
  ++ (match stack with [] => [] | _ :: _ => [TracebackHeader] end)
  ++ (StackLine <$> stack)
  ++ [ExceptionOnly e]
  (* the module's own part *)
  ++ format_embedded (traceback_exception_format chain) 0 embedded.

(** [traceback.format_exception(etype, value, tb)] as [trio_excepthook]
    calls it: the exception captured with no [_seen], formatted with
    [chain=True]. *)
Definition format_exception (fuel : nat) (h : heap) (value : exc)
  : option (list chunk) :=
  '(te, _) ← traceback_exception_init fuel h value None;
  Some (traceback_exception_format true te).

(** ** Vocabulary of the properties *)

(** The leaves of a tree, depth first and left to right. *)
Fixpoint leaves (e : exc) : list exc :=
  match e with
  | Atomic _ => [e]
  | MultiError _ exceptions => exceptions ≫= leaves
  end.

(** The addresses of all the nodes of a tree. *)
Fixpoint ids (e : exc) : list nat :=
  match e with
  | Atomic i => [i]
  | MultiError i exceptions => i :: (exceptions ≫= ids)
  end.

(** No [MultiError] of the tree has an empty [exceptions] list. *)
Fixpoint no_empty_aggregate (e : exc) : bool :=
  match e with
  | Atomic _ => true
  | MultiError _ exceptions =>
      match exceptions with [] => false | _ :: _ => true end
      && forallb no_empty_aggregate exceptions
  end.

(** The end-to-end chain of every leaf: the frames of the tracebacks met
    from the root down to it, [prefix] being what was met above [e]. *)
Fixpoint leaf_chains (h : heap) (prefix : list tb_entry) (e : exc)
  : list (exc * list tb_entry) :=
  let here := prefix ++ frames (get_traceback h e) in
  match e with
  | Atomic _ => [(e, here)]
  | MultiError _ exceptions => exceptions ≫= leaf_chains h here
  end.

(** The same, for the leaves that do not lie in a subtree whose root is in
    [preserved]. *)
Fixpoint exposed_chains (h : heap) (preserved : gset nat)
    (prefix : list tb_entry) (e : exc) : list (exc * list tb_entry) :=
  if decide (id_of e ∈ preserved) then []
  else
    let here := prefix ++ frames (get_traceback h e) in
    match e with
    | Atomic _ => [(e, here)]
    | MultiError _ exceptions => exceptions ≫= exposed_chains h preserved here
    end.

(** The leaves that do not lie in a subtree whose root is in [preserved]. *)
Fixpoint exposed_leaves (preserved : gset nat) (e : exc) : list exc :=
  if decide (id_of e ∈ preserved) then []
  else
    match e with
    | Atomic _ => [e]
    | MultiError _ exceptions => exceptions ≫= exposed_leaves preserved
    end.

(** Ghost: record a sequence of calls of the handler. *)
Definition log_calls (l : list exc) (h : heap) : heap :=
  Heap (h_traceback h) (h_context h) (h_cause h) (h_suppress h) (h_next h)
       (h_calls h ++ l).

(** The assignment [new_exc.__context__ = exc] that [filter_tree] makes at
    the leaf [L], as a function on the [__context__] attributes. *)
Definition assign_context (handler : exc -> option exc)
    (ctx : gmap nat exc) (L : exc) : gmap nat exc :=
  match handler L with
  | Some n => if is_ n L then ctx else <[id_of n := L]> ctx
  | None => ctx
  end.

(** [h'] differs from [h] at most in tracebacks and the allocation pointer. *)
Definition tb_only (h h' : heap) : Prop :=
  h_context h' = h_context h ∧ h_cause h' = h_cause h
  ∧ h_suppress h' = h_suppress h ∧ h_calls h' = h_calls h.

(** What [filter_tree] does to the fields other than [preserved] and the
    result: the handler calls are logged in leaf order, the contexts get the
    assignments of the replaced leaves in leaf order, and tracebacks, causes
    and suppress flags stay. *)
Definition filter_effect (handler : exc -> option exc)
    (e_leaves : list exc) (h h' : heap) : Prop :=
  h_calls h' = h_calls h ++ e_leaves
  ∧ h_context h' = foldl (assign_context handler) (h_context h) e_leaves
  ∧ h_traceback h' = h_traceback h
  ∧ h_cause h' = h_cause h ∧ h_suppress h' = h_suppress h
  ∧ h_next h ≤ h_next h'.

(** The heap an empty program starts with. *)
Definition empty_heap : heap := Heap ∅ ∅ ∅ ∅ 0 [].

(** ** Sample objects *)

(** [MultiError([e1, MultiError([e3, e4])])] at address 0, in a heap whose
    first five addresses are taken. *)
Definition sample_tree : exc :=
  MultiError 0 [Atomic 1; MultiError 2 [Atomic 3; Atomic 4]].

Definition sample_heap : heap := Heap ∅ ∅ ∅ ∅ 5 [].

(** A handler that replaces the exception at address 1 by the one at
    address 3 and keeps every other one. *)
Definition replace_1_by_3 (e : exc) : option exc :=
  match e with
  | Atomic 1 => Some (Atomic 3)
  | _ => Some e
  end.

(** [MultiError([e1, e2])] at address 0, which has one traceback entry in
    [sample_pair_heap]. *)
Definition sample_pair : exc := MultiError 0 [Atomic 1; Atomic 2].

Definition sample_entry : tb_entry := TbEntry 7 0%Z 42%Z.

(** The entry of the frame of [__exit__], where the catcher raises. *)
Definition exit_entry : tb_entry := TbEntry 8 0%Z 151%Z.

Definition sample_pair_heap : heap :=
  Heap {[0 := Tb 10 sample_entry None]} ∅ ∅ ∅ 11 [].

(** A handler that drops the exception at address 4 and keeps every other
    one. *)
Definition drop_4 (e : exc) : option exc :=
  match e with
  | Atomic 4 => None
  | _ => Some e
  end.

(** [MultiError([MultiError([e2, e3]), e4])] at address 0. *)
Definition sample_nested : exc :=
  MultiError 0 [MultiError 1 [Atomic 2; Atomic 3]; Atomic 4].

(** The chain invariant in its widest reading: every leaf that [filter]
    keeps or replaces has, in the result, the end-to-end chain the leaf had
    before. *)
Definition chains_preserved (handler : exc -> option exc) (root : exc)
    (h : heap) : Prop :=
  ∀ r, (MultiError_filter handler root h).1 = Some r ->
  ∀ L c, (L, c) ∈ leaf_chains h [] root ->
  ∀ L', handler L = Some L' ->
    (L', c) ∈ leaf_chains (MultiError_filter handler root h).2 [] r.

(** [c] is the description of [e], at any indentation. *)
Fixpoint describes (e : exc) (c : chunk) : bool :=
  match c with
  | ExceptionOnly x => is_ x e
  | Indent c => describes e c
  | _ => false
  end.

(** How many times the output describes [e]. *)
Definition descriptions_of (e : exc) (out : list chunk) : nat :=
  length (filter (λ c, describes e c = true) out).

(** The blocks that [traceback_exception_format] appends for embedded
    exceptions whose own outputs are [outs], numbered from [k + 1]. *)
Fixpoint embedded_blocks (k : nat) (outs : list (list chunk)) : list chunk :=
  match outs with
  | [] => []
  | out :: rest =>
      EmbeddedHeader (k + 1) :: (Indent <$> out) ++ embedded_blocks (S k) rest
  end.

(** The seen-set reading of the renderer: every leaf of the tree is
    described once in the output, however many paths (as a member, as a
    cause) lead to it. *)
Definition described_once (h : heap) (root : exc) : Prop :=
  ∀ fuel out, format_exception fuel h root = Some out ->
  ∀ L, L ∈ leaves root -> descriptions_of L out = 1.

(** The sample pair when the exception at address 2 was raised from the
    one at address 1 ([raise e2 from e1]). *)
Definition sample_cause_heap : heap := Heap ∅ ∅ {[2 := Atomic 1]} {[2]} 3 [].

(** The number of levels of a tree. *)
Fixpoint height (e : exc) : nat :=
  match e with
  | Atomic _ => 1
  | MultiError _ exceptions => S (foldr (λ c m, height c `max` m) 0 exceptions)
  end.

(** Every exception that the links of the objects at addresses of [U] lead
    to has all its nodes at addresses of [U]. *)
Definition links_within (U : gset nat) (h : heap) : Prop :=
  ∀ i c, i ∈ U -> h_cause h !! i = Some c ∨ h_context h !! i = Some c ->
         ∀ j, j ∈ ids c -> j ∈ U.

(** [exc_value.exceptions], empty for an atomic exception. *)
Definition children (e : exc) : list exc :=
  match e with Atomic _ => [] | MultiError _ es => es end.

(** A [TracebackException] without its embedded ones. *)
Definition no_embedded (te : TracebackException) : TracebackException :=
  let 'TE e stack cause context suppress_context _ := te in
  TE e stack cause context suppress_context [].

(** What a capture with a seen set returns. *)
Definition captured_seen (h : heap) (n : nat) (x : exc) (s : gset nat)
    (te : TracebackException) (s' : gset nat) : Prop :=
  traceback_exception_init n h x (Some s) = Some (te, s')
  ∧ {[id_of x]} ∪ s ⊆ s' ∧ te_exc te = x
  ∧ te_exc <$> te_embedded te = filter (λ c, id_of c ∉ s') (children x)
  ∧ Forall2 (λ c t, ∃ s'', traceback_exception_init (n - 1) h c (Some s')
                           = Some (t, s''))
      (filter (λ c, id_of c ∉ s') (children x)) (te_embedded te).

(** What pushing [tb] down [e] from the heap [h0] achieves: every exposed
    leaf ends with the whole chain from [tb] down to it as its own
    traceback, and no traceback outside [e] is touched. *)
Definition pushed (P : gset nat) (e : exc) (tb : option traceback)
    (h0 h' : heap) : Prop :=
  (∀ L c, (L, c) ∈ exposed_chains h0 P (frames tb) e ->
          frames (get_traceback h' L) = c)
  ∧ (∀ i, i ∉ ids e -> h_traceback h' !! i = h_traceback h0 !! i).

(** [preserved] grows, and only by addresses of the tree. *)
Definition grows_within (l : list nat) (P P' : gset nat) : Prop :=
  P ⊆ P' ∧ ∀ i, i ∈ P' -> i ∈ P ∨ i ∈ l.

(** [L] sits in [r] below nodes without traceback: its chain in the final
    heap [hf], started from [q], is [q] followed by its own traceback. *)
Definition placed (hf : heap) (q : list tb_entry) (L : exc) (r : exc) : Prop :=
  (L, q ++ frames (get_traceback hf L)) ∈ leaf_chains hf q r.

(** The hypotheses on one call: what it adds to [preserved] is in the final
    set, and what it allocates has no traceback in the final heap. *)
Definition settled (hf : heap) (Pf P1 : gset nat) (h0 h1 : heap) : Prop :=
  P1 ⊆ Pf ∧ ∀ i, h_next h0 ≤ i < h_next h1 -> h_traceback hf !! i = None.

(** ** More of the module *)

(** [id(tb)] *)
Definition tb_id_of (t : traceback) : nat := let 'Tb a _ _ := t in a.

(** The entries of a chain, outermost first, read off its objects one
    [tb_next] after the other.  This is the measure of a chain that the
    statements about [concat_tb] use; it is written on the objects
    themselves and shares nothing with the loops of [concat_tb]. *)
Fixpoint entries_from (t : traceback) : list tb_entry :=
  match t with
  | Tb _ entry next =>
      entry :: match next with
               | Some t' => entries_from t'
               | None => []
               end
  end.

Definition tb_entries (tb : option traceback) : list tb_entry :=
  match tb with
  | Some t => entries_from t
  | None => []
  end.

(** The object reached from [tb] by following [tb_next] [n] times ([None]
    past the end of the chain). *)
Fixpoint nth_next (n : nat) (tb : option traceback) : option traceback :=
  match n, tb with
  | 0, _ => tb
  | S n, Some (Tb _ _ next) => nth_next n next
  | S _, None => None
  end.

(** The first element of a constructor argument that is no exception, if
    any: the one the [for] loop of [__new__] stops at. *)
Fixpoint first_other (vs : list pyval) : option string :=
  match vs with
  | [] => None
  | VOther r :: _ => Some r
  | VExc _ :: rest => first_other rest
  end.

(** [MultiError.__init__(self, exceptions)], on the attribute [exceptions]
    of [self] ([None] when [hasattr(self, "exceptions")] is false): the new
    value of the attribute, or the failure of the [assert]. *)
Inductive init_outcome : Type :=
| InitDone (attr : list exc)
| InitAssertionError.

Definition MultiError_init (self : nat) (attr : option (list exc))
    (exceptions : list exc) : init_outcome :=
  match attr with
  | Some already =>
      (* __init__ was already called on this object *)
      match exceptions with
      | [e] => if bool_decide (id_of e = self) then InitDone already
               else InitAssertionError
      | _ => InitAssertionError
      end
  | None => InitDone exceptions
  end.

(** The call [MultiError(exceptions)] on exception objects, step by step:
    [__new__], then, when what it returned is a [MultiError], [__init__] on
    it with the same argument.  [None] is an [AssertionError]. *)
Definition MultiError_call (exceptions : list exc) (h : heap)
  : option (exc * heap) :=
  match exceptions with
  | [Atomic i] => Some (Atomic i, h)
  | [MultiError i es] =>
      match MultiError_init i (Some es) exceptions with
      | InitDone attr => Some (MultiError i attr, h)
      | InitAssertionError => None
      end
  | _ =>
      let '(a, h') := alloc h in
      match MultiError_init a None exceptions with
      | InitDone attr => Some (MultiError a attr, h')
      | InitAssertionError => None
      end
  end.

(** What the handler returns for the leaves of a tree, in leaf order; a
    leaf for which it returns [None] contributes nothing. *)
Definition handler_outputs (handler : exc -> option exc) (e : exc) : list exc :=
  omap handler (leaves e).

(** Every [MultiError] of the tree has at least two members. *)
Fixpoint well_formed (e : exc) : bool :=
  match e with
  | Atomic _ => true
  | MultiError _ exceptions =>
      (2 <=? length exceptions) && forallb well_formed exceptions
  end.

(** The addresses of the [MultiError] nodes that do not lie in a subtree
    whose root is in [preserved]. *)
Fixpoint exposed_aggregates (preserved : gset nat) (e : exc) : list nat :=
  if decide (id_of e ∈ preserved) then []
  else
    match e with
    | Atomic _ => []
    | MultiError i exceptions =>
        i :: (exceptions ≫= exposed_aggregates preserved)
    end.

(** What the induction carries for a subtree [e] and its result [r]: the
    leaves of [r] are those of the outputs, [r] has the address of [e] only
    if it is [e], and its address is in [e] or outside the tree, whose
    addresses are [U]. *)
Definition leaves_inv (handler : exc -> option exc) (U : list nat)
    (e : exc) (r : option exc) : Prop :=
  from_option leaves [] r = handler_outputs handler e ≫= leaves
  ∧ (∀ r', r = Some r' -> id_of r' = id_of e -> r' = e)
  ∧ (∀ r', r = Some r' -> id_of r' ∈ ids e ∨ id_of r' ∉ U).

(** A cause or context message, at any indentation. *)
Fixpoint is_chain_message (c : chunk) : bool :=
  match c with
  | CauseMessage | ContextMessage => true
  | Indent c => is_chain_message c
  | _ => false
  end.

(** The numbers of the embedded-exception headers at the outer level of an
    output. *)
Definition top_headers (out : list chunk) : list nat :=
  omap (λ c, match c with EmbeddedHeader n => Some n | _ => None end) out.

(** A handler that keeps the exception at address 3 and drops every other
    one. *)
Definition keep_only_3 (e : exc) : option exc :=
  match e with
  | Atomic 3 => Some e
  | _ => None
  end.

(** ** Installing the hook when the module is loaded *)

(** What [sys.excepthook] holds. *)
Inductive hook : Type :=
| DefaultHook                        (* sys.__excepthook__ *)
| TrioHook                           (* trio_excepthook *)
| ApportHook                         (* apport_python_hook.apport_excepthook *)
| OtherHook (name : option string).  (* anything else, with its __name__ if it has one *)

(** [getattr(sys.excepthook, "__name__", None)] *)
Definition hook_name (k : hook) : option string :=
  match k with
  | DefaultHook => Some "excepthook"%string
  | TrioHook => Some "trio_excepthook"%string
  | ApportHook => Some "apport_excepthook"%string
  | OtherHook name => name
  end.

(** What the module looks at when it is loaded: whether ["IPython"] is in
    [sys.modules], what [IPython.get_ipython()] returns ([None], or a shell
    of which we keep whether its [custom_exceptions] is [()]), and
    [sys.excepthook]. *)
Record environment := Environment {
  ipython_in_modules : bool;
  get_ipython : option bool;
  sys_excepthook : hook
}.

(** What loading the module does to its surroundings. *)
Inductive install_action : Type :=
| WarnIPythonCustomHandler   (* "IPython detected, but you already have ..." *)
| SetCustomExc               (* ip.set_custom_exc((MultiError,), trio_show_traceback) *)
| SetExcepthook              (* sys.excepthook = trio_excepthook *)
| PatchApport                (* apport_python_hook.sys = fake_sys *)
| WarnCustomExcepthook.      (* "You seem to already have a custom sys.excepthook ..." *)

(** The module-level statements from [monkeypatched_or_warned = False] to
    the end: the actions taken, in order, and the final [sys.excepthook].
    [None] is the failure of the [import apport_python_hook] or of the
    [assert] below it, for a hook that only bears apport's name. *)
Definition install_hooks (env : environment)
  : option (list install_action * hook) :=
  let '(actions, monkeypatched_or_warned) :=
    if ipython_in_modules env then
      match get_ipython env with
      | Some custom_exceptions_empty =>
          if custom_exceptions_empty then ([SetCustomExc], true)
          else ([WarnIPythonCustomHandler], true)
      | None => ([], false)
      end
    else ([], false) in
  let '(actions, monkeypatched_or_warned, excepthook) :=
    match sys_excepthook env with
    | DefaultHook => (actions ++ [SetExcepthook], true, TrioHook)
    | k => (actions, monkeypatched_or_warned, k)
    end in
  if decide (hook_name excepthook = Some "apport_excepthook"%string) then
    match excepthook with
    | ApportHook => Some (actions ++ [PatchApport], excepthook)
    | _ => None
    end
  else if monkeypatched_or_warned then Some (actions, excepthook)
  else Some (actions ++ [WarnCustomExcepthook], excepthook).

(** A handler that drops every exception. *)
Definition drop_all (e : exc) : option exc := None.

(** The addresses of the nodes [push_tb_down] goes through: those that do
    not lie in a subtree whose root is in [preserved]. *)
Fixpoint visited_nodes (preserved : gset nat) (e : exc) : list nat :=
  if decide (id_of e ∈ preserved) then []
  else
    match e with
    | Atomic i => [i]
    | MultiError i exceptions =>
        i :: (exceptions ≫= visited_nodes preserved)
    end.

(** * Properties *)

(** An induction principle that reaches the children of a [MultiError]. *)
Lemma exc_tree_ind (P : exc -> Prop) :
  (∀ i, P (Atomic i)) ->
  (∀ i es, Forall P es -> P (MultiError i es)) ->
  ∀ e, P e.
Proof.
  intros Hat Hmulti.
  fix IH 1. intros [i | i es].
  - apply Hat.
  - apply Hmulti. induction es as [| c es IHes]; constructor; [apply IH | exact IHes].
Qed.

(** ** concat_tb *)

Lemma frames_Some a e n : frames (Some (Tb a e n)) = e :: frames n.
Proof. unfold frames. simpl. by destruct n. Qed.

Lemma frames_tbs_from t : tb_entry_of <$> tbs_from t = frames (Some t).
Proof. reflexivity. Qed.

Lemma copy_loop_frames tbs cur h :
  frames (copy_loop tbs cur h).1 = reverse (tb_entry_of <$> tbs) ++ frames cur.
Proof.
  revert cur h. induction tbs as [| t tbs IH]; intros cur h; simpl; [done |].
  rewrite IH, frames_Some, reverse_cons, <- app_assoc. done.
Qed.

Lemma copy_loop_next tbs cur h :
  h_next (copy_loop tbs cur h).2 = h_next h + length tbs.
Proof.
  revert cur h. induction tbs as [| t tbs IH]; intros cur h; simpl; [lia |].
  rewrite IH. simpl. lia.
Qed.

(** What the [while] loop of [concat_tb] collects has the entries of the
    chain, in order. *)
Lemma tbs_from_entries t : tb_entry_of <$> tbs_from t = entries_from t.
Proof.
  revert t. fix IH 1. intros [a e [n |]]; cbn; f_equal. apply IH.
Qed.

Lemma frames_tb_entries tb : frames tb = tb_entries tb.
Proof. destruct tb as [t |]; [apply tbs_from_entries | done]. Qed.

(** C9: the entries of the chain [concat_tb(head, tail)] returns, read off
    its objects, are those of [head], in order, followed by those of
    [tail], in order; [tail] may be [None]. *)
Theorem concat_tb_frames (head tail : option traceback) (h : heap) :
  tb_entries (concat_tb head tail h).1 = tb_entries head ++ tb_entries tail.
Proof.
  rewrite <- !frames_tb_entries. unfold concat_tb. rewrite copy_loop_frames.
  unfold frames at 2. by rewrite fmap_reverse, reverse_involutive.
Qed.

(** C10: [concat_tb(None, tail)] is [tail] itself, and nothing is allocated:
    the heap is the one the call started with. *)
Theorem concat_tb_None_l (tail : option traceback) (h : heap) :
  concat_tb None tail h = (tail, h).
Proof. reflexivity. Qed.

(** ** MultiError(...) *)

Lemma check_exceptions_VExc es : check_exceptions (VExc <$> es) = Ok es.
Proof. induction es as [| e es IH]; csimpl; [done | by rewrite IH]. Qed.

Lemma MultiError_new_VExc es h :
  MultiError_new (VExc <$> es) h =
  let '(e, h') := MultiError_of es h in (Ok e, h').
Proof. unfold MultiError_new. by rewrite check_exceptions_VExc. Qed.

Lemma check_exceptions_Raise vs err :
  check_exceptions vs = Raise err -> ∃ r, VOther r ∈ vs ∧ err = TypeError r.
Proof.
  induction vs as [| [e | r] vs IH]; simpl; [done | |].
  - destruct (check_exceptions vs); [done |].
    intros [= <-]. destruct IH as (r & Hin & ->); [done |].
    exists r. split; [by right | done].
  - intros [= <-]. exists r. split; [by left | done].
Qed.

(** The only failure of the constructor is the [TypeError] for an element
    that is not an exception. *)
Lemma MultiError_new_Raise vs h err :
  (MultiError_new vs h).1 = Raise err -> ∃ r, VOther r ∈ vs ∧ err = TypeError r.
Proof.
  unfold MultiError_new. destruct (check_exceptions vs) eqn:E.
  - destruct (MultiError_of a h). done.
  - simpl. intros [= <-]. by apply check_exceptions_Raise.
Qed.

(** C2, as stated: the constructor fails on the empty sequence.  It does
    not: on the empty heap it returns the [MultiError] at address 0 whose
    [exceptions] list is empty. *)
Lemma MultiError_new_empty_no_error :
  (MultiError_new [] empty_heap).1 = Ok (MultiError 0 [])
  ∧ ¬ (∃ err, (MultiError_new [] empty_heap).1 = Raise err).
Proof. split; [reflexivity |]. intros [err H]. discriminate H. Qed.

(** C2, amended: on the empty sequence the constructor does not fail; it
    allocates a [MultiError] whose [exceptions] list is empty. *)
Theorem MultiError_new_empty (h : heap) :
  MultiError_new [] h = (Ok (MultiError (h_next h) []), (alloc h).2).
Proof. reflexivity. Qed.

(** C5: on a single exception the constructor returns that exception
    itself, and allocates nothing; on two or more it returns a
    [MultiError] at a new address whose [exceptions] are those given, in
    order. *)
Theorem MultiError_new_builds :
  (∀ (e : exc) (h : heap), MultiError_new [VExc e] h = (Ok e, h))
  ∧ (∀ (e1 e2 : exc) (es : list exc) (h : heap),
       MultiError_new (VExc <$> e1 :: e2 :: es) h =
       (Ok (MultiError (h_next h) (e1 :: e2 :: es)), (alloc h).2)).
Proof.
  split; [reflexivity |].
  intros e1 e2 es h. by rewrite MultiError_new_VExc.
Qed.

(** ** The heap fields each step leaves alone *)

Lemma tb_only_refl h : tb_only h h.
Proof. by repeat split. Qed.

Lemma tb_only_trans h1 h2 h3 : tb_only h1 h2 -> tb_only h2 h3 -> tb_only h1 h3.
Proof.
  unfold tb_only. intros (? & ? & ? & ?) (? & ? & ? & ?).
  repeat split; congruence.
Qed.

Lemma copy_loop_tb_only tbs cur h : tb_only h (copy_loop tbs cur h).2.
Proof.
  revert cur h. induction tbs as [| t tbs IH]; intros cur h; simpl.
  - apply tb_only_refl.
  - eapply tb_only_trans; [| apply IH]. by repeat split.
Qed.

Lemma copy_loop_traceback tbs cur h :
  h_traceback (copy_loop tbs cur h).2 = h_traceback h.
Proof.
  revert cur h. induction tbs as [| t tbs IH]; intros cur h; simpl; [done |].
  by rewrite IH.
Qed.

Lemma concat_tb_tb_only head tail h : tb_only h (concat_tb head tail h).2.
Proof. apply copy_loop_tb_only. Qed.

Lemma concat_tb_traceback head tail h :
  h_traceback (concat_tb head tail h).2 = h_traceback h.
Proof. apply copy_loop_traceback. Qed.

(** What [push_tb_down] needs of [concat_tb]. *)
Lemma concat_tb_result head tail h :
  frames (concat_tb head tail h).1 = frames head ++ frames tail
  ∧ h_traceback (concat_tb head tail h).2 = h_traceback h.
Proof.
  split; [| apply copy_loop_traceback].
  unfold concat_tb. rewrite copy_loop_frames, <- fmap_reverse.
  by rewrite reverse_involutive.
Qed.

Lemma concat_tb_no_head tail h : concat_tb None tail h = (tail, h).
Proof. reflexivity. Qed.

Lemma concat_tb_next head tail h : h_next h ≤ h_next (concat_tb head tail h).2.
Proof. unfold concat_tb. rewrite copy_loop_next. lia. Qed.

Lemma set_traceback_tb_only e tb h : tb_only h (set_traceback e tb h).
Proof. by repeat split. Qed.

Section FilterFacts.
Variable handler : exc -> option exc.

Lemma push_tb_down_unfold tb e preserved h :
  push_tb_down tb e preserved h =
  if decide (id_of e ∈ preserved) then h
  else
    let '(new_tb, h) := concat_tb tb (get_traceback h e) h in
    match e with
    | MultiError _ exceptions =>
        set_traceback e None
          (push_children push_tb_down new_tb preserved exceptions h)
    | Atomic _ => set_traceback e new_tb h
    end.
Proof. by destruct e. Qed.

Lemma push_children_tb_only new_tb preserved es :
  Forall (λ e, ∀ tb h, tb_only h (push_tb_down tb e preserved h)) es ->
  ∀ h, tb_only h (push_children push_tb_down new_tb preserved es h).
Proof.
  induction 1 as [| c es Hc _ IH]; intros h; simpl.
  - apply tb_only_refl.
  - eapply tb_only_trans; [apply Hc | apply IH].
Qed.

Lemma push_tb_down_tb_only preserved e :
  ∀ tb h, tb_only h (push_tb_down tb e preserved h).
Proof.
  induction e as [i | i es IH] using exc_tree_ind; intros tb h;
    rewrite push_tb_down_unfold; case_decide; try apply tb_only_refl.
  - pose proof (concat_tb_tb_only tb (get_traceback h (Atomic i)) h) as Hc.
    destruct (concat_tb _ _ _) as [new_tb h1]. simpl in Hc.
    eapply tb_only_trans; [exact Hc | apply set_traceback_tb_only].
  - pose proof (concat_tb_tb_only tb (get_traceback h (MultiError i es)) h) as Hc.
    destruct (concat_tb _ _ _) as [new_tb h1]. simpl in Hc.
    eapply tb_only_trans; [exact Hc |].
    eapply tb_only_trans; [by apply push_children_tb_only |].
    apply set_traceback_tb_only.
Qed.

Lemma filter_tree_MultiError i es preserved h :
  filter_tree handler (MultiError i es) preserved h =
  let '(new_exceptions, changed, preserved, h) :=
    filter_children (filter_tree handler) es [] false preserved h in
  match new_exceptions with
  | [] => (None, preserved, h)
  | _ :: _ =>
      if changed then
        let '(m, h) := MultiError_of new_exceptions h in (Some m, preserved, h)
      else (Some (MultiError i es), {[i]} ∪ preserved, h)
  end.
Proof. reflexivity. Qed.

Lemma filter_children_cons rec c rest news changed preserved h :
  filter_children rec (c :: rest) news changed preserved h =
  let '(new_child_exc, preserved, h) := rec c preserved h in
  filter_children rec rest
    (match new_child_exc with Some x => news ++ [x] | None => news end)
    (if opt_is new_child_exc (Some c) then changed else true)
    preserved h.
Proof. reflexivity. Qed.

Lemma filter_effect_nil h : filter_effect handler [] h h.
Proof. unfold filter_effect. rewrite app_nil_r. by repeat split. Qed.

Lemma filter_effect_app l1 l2 h1 h2 h3 :
  filter_effect handler l1 h1 h2 -> filter_effect handler l2 h2 h3 ->
  filter_effect handler (l1 ++ l2) h1 h3.
Proof.
  unfold filter_effect.
  intros (C1 & X1 & T1 & A1 & S1 & N1) (C2 & X2 & T2 & A2 & S2 & N2).
  rewrite foldl_app, app_assoc.
  repeat split; try congruence; lia.
Qed.

Lemma MultiError_of_effect es h :
  filter_effect handler [] h (MultiError_of es h).2.
Proof.
  unfold filter_effect, MultiError_of.
  destruct es as [| ? [| ? ?]]; simpl; rewrite app_nil_r; repeat split; lia.
Qed.

Lemma filter_children_effect es :
  Forall (λ e, ∀ P h, filter_effect handler (leaves e) h
                        (filter_tree handler e P h).2) es ->
  ∀ news changed P h,
    filter_effect handler (es ≫= leaves) h
      (filter_children (filter_tree handler) es news changed P h).2.
Proof.
  induction 1 as [| c es Hc _ IH]; intros news changed P h.
  - apply filter_effect_nil.
  - rewrite filter_children_cons. specialize (Hc P h).
    destruct (filter_tree handler c P h) as [[r P1] h1]. simpl in Hc.
    change ((c :: es) ≫= leaves) with (leaves c ++ (es ≫= leaves)).
    eapply filter_effect_app; [exact Hc | apply IH].
Qed.

Lemma filter_tree_effect e :
  ∀ P h, filter_effect handler (leaves e) h (filter_tree handler e P h).2.
Proof.
  induction e as [i | i es IH] using exc_tree_ind; intros P h.
  - unfold filter_effect, assign_context. simpl.
    destruct (handler (Atomic i)) as [n |]; simpl; [| by repeat split].
    destruct (is_ n (Atomic i)); simpl; by repeat split.
  - rewrite filter_tree_MultiError.
    pose proof (filter_children_effect es IH [] false P h) as Hc.
    destruct (filter_children _ _ _ _ _ _) as [[[news changed] P1] h1].
    simpl in Hc. change (leaves (MultiError i es)) with (es ≫= leaves).
    destruct news as [| x news]; [exact Hc |].
    destruct changed; [| exact Hc].
    pose proof (MultiError_of_effect (x :: news) h1) as Hm.
    destruct (MultiError_of _ _) as [m h2]. simpl in *.
    rewrite <- (app_nil_r (es ≫= leaves)).
    eapply filter_effect_app; [exact Hc | exact Hm].
Qed.

Lemma _filter_impl_effect root h :
  h_calls (_filter_impl handler root h).2 = h_calls h ++ leaves root
  ∧ h_context (_filter_impl handler root h).2 =
      foldl (assign_context handler) (h_context h) (leaves root).
Proof.
  unfold _filter_impl.
  pose proof (filter_tree_effect root ∅ h) as (C & X & _).
  destruct (filter_tree handler root ∅ h) as [[r P] h1]. simpl in *.
  destruct (push_tb_down_tb_only P root None h1) as (X' & _ & _ & C').
  split; congruence.
Qed.


End FilterFacts.

(** ** A handler that keeps every leaf *)

Lemma log_calls_nil h : log_calls [] h = h.
Proof. destruct h. unfold log_calls. simpl. by rewrite app_nil_r. Qed.

Lemma log_calls_app l1 l2 h : log_calls l2 (log_calls l1 h) = log_calls (l1 ++ l2) h.
Proof. unfold log_calls. simpl. by rewrite app_assoc. Qed.

Lemma set_traceback_get e h : set_traceback e (get_traceback h e) h = h.
Proof.
  destruct h as [tbs ? ? ? ? ?]. unfold set_traceback, get_traceback. simpl.
  f_equal. destruct (tbs !! id_of e) eqn:E.
  - by apply insert_id.
  - by apply delete_id.
Qed.

Lemma is_refl e : is_ e e = true.
Proof. unfold is_. by apply bool_decide_eq_true. Qed.

Lemma leaves_atomic e L : L ∈ leaves e -> ∃ i, L = Atomic i.
Proof.
  induction e as [i | i es IH] using exc_tree_ind; simpl.
  - intros ->%list_elem_of_singleton. by exists i.
  - intros (c & HL & Hc)%list_elem_of_bind.
    rewrite Forall_forall in IH. by apply (IH c).
Qed.

Section KeepAll.
Variable handler : exc -> option exc.

Lemma filter_children_keep es :
  Forall (λ e, ∀ P h, ∃ P',
            filter_tree handler e P h = (Some e, P', log_calls (leaves e) h)) es ->
  ∀ news changed P h, ∃ P',
    filter_children (filter_tree handler) es news changed P h =
    (news ++ es, changed, P', log_calls (es ≫= leaves) h).
Proof.
  induction 1 as [| c es Hc _ IH]; intros news changed P h.
  - exists P. simpl. by rewrite app_nil_r, log_calls_nil.
  - rewrite filter_children_cons. destruct (Hc P h) as [P1 ->].
    destruct (IH (news ++ [c]) changed P1 (log_calls (leaves c) h)) as [P2 E].
    exists P2. simpl. rewrite is_refl, E, log_calls_app, <- app_assoc. done.
Qed.

Lemma filter_tree_keep e :
  (∀ L, L ∈ leaves e -> handler L = Some L) ->
  no_empty_aggregate e = true ->
  ∀ P h, ∃ P',
    filter_tree handler e P h = (Some e, P', log_calls (leaves e) h)
    ∧ (is_MultiError e = true -> id_of e ∈ P')
    ∧ (is_MultiError e = false -> P' = P).
Proof.
  induction e as [i | i es IH] using exc_tree_ind; intros Hkeep Hne P h.
  - exists P. simpl. rewrite (Hkeep (Atomic i)) by (simpl; set_solver).
    by rewrite is_refl.
  - simpl in Hne. apply andb_true_iff in Hne as [Hes Hall].
    rewrite forallb_forall in Hall.
    assert (Forall (λ e, ∀ P h, ∃ P',
              filter_tree handler e P h = (Some e, P', log_calls (leaves e) h)) es)
      as Hch.
    { rewrite Forall_forall in IH |- *. intros c Hc P0 h0.
      destruct (IH c Hc) with (P := P0) (h := h0) as (P' & E & _).
      - intros L HL. apply Hkeep. simpl. apply list_elem_of_bind. eauto.
      - apply Hall. by apply list_elem_of_In.
      - eauto. }
    destruct (filter_children_keep es Hch [] false P h) as [P1 E].
    rewrite filter_tree_MultiError, E. simpl.
    destruct es as [| c es]; [done |].
    exists ({[i]} ∪ P1). split; [done |]. split; [set_solver | done].
Qed.

(** C4: when the handler returns every leaf it is given, and no
    [MultiError] of the tree is empty, [filter] returns the tree itself;
    nothing is allocated and no attribute is assigned: the heap differs
    from the initial one by the ghost log of handler calls only. *)
Theorem filter_keep_all_returns_same_object (root : exc) (h : heap) :
  (∀ L, L ∈ leaves root -> handler L = Some L) ->
  no_empty_aggregate root = true ->
  MultiError_filter handler root h = (Some root, log_calls (leaves root) h).
Proof.
  intros Hkeep Hne. unfold MultiError_filter, _filter_impl.
  destruct (filter_tree_keep root Hkeep Hne ∅ h) as (P & -> & HM & HA).
  rewrite push_tb_down_unfold. destruct root as [i | i es].
  - rewrite HA by done. rewrite decide_False by set_solver.
    rewrite concat_tb_no_head. by rewrite set_traceback_get.
  - by rewrite decide_True by auto.
Qed.

End KeepAll.

(** ** The context of a replacement *)

Section Replace.
Variable handler : exc -> option exc.

Lemma foldl_assign_context_keeps ctx l (n : exc) :
  (∀ L' n', L' ∈ l -> handler L' = Some n' -> is_ n' L' = false ->
            id_of n' ≠ id_of n) ->
  foldl (assign_context handler) ctx l !! id_of n = ctx !! id_of n.
Proof.
  revert ctx. induction l as [| L' l IH]; intros ctx Hl; simpl; [done |].
  rewrite IH by (intros; eapply Hl; eauto; by right).
  unfold assign_context. destruct (handler L') as [n' |] eqn:E; [| done].
  destruct (is_ n' L') eqn:Eis; [done |].
  apply lookup_insert_ne. eapply Hl; eauto. by left.
Qed.

(** C7: at a leaf [L] for which the handler returns another object [n],
    [filter_tree] assigns [n.__context__ = L] and returns [n], in whatever
    state it reaches the leaf; the contexts at the end of [filter] are the
    initial ones with these assignments made in leaf order; so [n]'s context
    at the end is [L], provided the handler does not hand out [n] again as
    the replacement of a later leaf. *)
Theorem filter_sets_context_of_replacement
    (root : exc) (h : heap) (l1 l2 : list exc) (L n : exc) :
  leaves root = l1 ++ L :: l2 ->
  handler L = Some n ->
  is_ n L = false ->
  (∀ P h0, filter_tree handler L P h0 =
           (Some n, P, set_context n (Some L) (log_call L h0)))
  ∧ h_context (MultiError_filter handler root h).2 =
      foldl (assign_context handler) (h_context h) (leaves root)
  ∧ ((∀ L' n', L' ∈ l2 -> handler L' = Some n' -> is_ n' L' = false ->
               id_of n' ≠ id_of n) ->
     get_context (MultiError_filter handler root h).2 n = Some L).
Proof.
  intros Hsplit HL Hnot.
  destruct (leaves_atomic root L) as [i ->].
  { rewrite Hsplit. set_solver. }
  destruct (_filter_impl_effect handler root h) as [_ Hctx].
  split; [| split].
  - intros P h0. simpl. by rewrite HL, Hnot.
  - exact Hctx.
  - intros Hlater. unfold get_context, MultiError_filter. rewrite Hctx, Hsplit.
    rewrite foldl_app. simpl. rewrite foldl_assign_context_keeps by exact Hlater.
    unfold assign_context. rewrite HL, Hnot. apply lookup_insert_eq.
Qed.

End Replace.

(** Witness of [filter_keep_all_returns_same_object]: the handler [Some]
    on the sample tree. *)
Lemma filter_keep_all_returns_same_object_witness :
  MultiError_filter Some sample_tree sample_heap =
  (Some sample_tree, log_calls (leaves sample_tree) sample_heap).
Proof.
  apply filter_keep_all_returns_same_object; [intros L _; reflexivity | reflexivity].
Defined.

(** Witness of [filter_sets_context_of_replacement]: in the sample pair the
    leaf at address 1 is replaced by the object at address 3, whose context
    is the leaf at the end. *)
Lemma filter_sets_context_of_replacement_witness :
  get_context (MultiError_filter replace_1_by_3 sample_pair sample_pair_heap).2
    (Atomic 3) = Some (Atomic 1).
Proof.
  apply (filter_sets_context_of_replacement replace_1_by_3 sample_pair
           sample_pair_heap [] [Atomic 2] (Atomic 1) (Atomic 3));
    [reflexivity | reflexivity | reflexivity |].
  intros L' n' ->%list_elem_of_singleton [= <-] _. simpl. lia.
Defined.

(** ** MultiErrorCatcher.__exit__ *)

(** C6: with [r = filter(handler, e)]: when [r is e], [__exit__] returns
    [False] and [e] goes on propagating; when [r] is [None], it returns
    [True] and the block completes; otherwise it raises [r], and whatever
    the interpreter did to the heap while raising, [r.__context__] is at the
    end what it was when [filter] returned. *)
Theorem catcher_exit_cases (handler : exc -> option exc)
    (raise_bookkeeping : exc -> exc -> heap -> heap) (e : exc) (h : heap) :
  let '(r, h1) := MultiError_filter handler e h in
  match r with
  | Some f =>
      if is_ f e then
        __exit__ handler raise_bookkeeping (Some e) h = (ExitReturn (Some false), h1)
        ∧ with_exit handler raise_bookkeeping e h = (Propagates e, h1)
      else
        ∃ h2,
          __exit__ handler raise_bookkeeping (Some e) h = (ExitRaise f, h2)
          ∧ with_exit handler raise_bookkeeping e h = (Propagates f, h2)
          ∧ h2 = set_context f (get_context h1 f) (raise_bookkeeping f e h1)
          ∧ get_context h2 f = get_context h1 f
  | None =>
      __exit__ handler raise_bookkeeping (Some e) h = (ExitReturn (Some true), h1)
      ∧ with_exit handler raise_bookkeeping e h = (Completes, h1)
  end.
Proof.
  unfold with_exit, __exit__.
  destruct (MultiError_filter handler e h) as [[f |] h1]; simpl.
  - destruct (is_ f e); [done |].
    eexists. split; [done |]. split; [done |]. split; [done |].
    unfold get_context, set_context. simpl.
    destruct (h_context h1 !! id_of f).
    + apply lookup_insert_eq.
    + apply lookup_delete_eq.
  - done.
Qed.

(** The catcher on the sample pair, with CPython's [raise]: the leaf at
    address 1 is replaced by the object at address 3; the new [MultiError]
    propagates, its context is [None] again and not the caught exception,
    and the context of the replacement is the leaf it replaces. *)
Example catcher_replaces_leaf :
  let res := with_exit replace_1_by_3 (cpython_raise exit_entry)
               sample_pair sample_pair_heap in
  res.1 = Propagates (MultiError 11 [Atomic 3; Atomic 2])
  ∧ get_context res.2 (MultiError 11 [Atomic 3; Atomic 2]) = None
  ∧ get_context res.2 (Atomic 3) = Some (Atomic 1)
  ∧ frames (get_traceback res.2 (MultiError 11 [Atomic 3; Atomic 2]))
    = [exit_entry].
Proof. vm_compute. done. Qed.

(** ** push_tb_down *)

Lemma id_of_in_ids e : id_of e ∈ ids e.
Proof. destruct e; simpl; set_solver. Qed.

Lemma exposed_chains_unfold h P prefix e :
  exposed_chains h P prefix e =
  if decide (id_of e ∈ P) then []
  else
    match e with
    | Atomic _ => [(e, prefix ++ frames (get_traceback h e))]
    | MultiError _ es =>
        es ≫= exposed_chains h P (prefix ++ frames (get_traceback h e))
    end.
Proof. by destruct e. Qed.

Lemma exposed_leaves_unfold P e :
  exposed_leaves P e =
  if decide (id_of e ∈ P) then []
  else match e with
       | Atomic _ => [e]
       | MultiError _ es => es ≫= exposed_leaves P
       end.
Proof. by destruct e. Qed.

(** The chains of a tree depend on the tracebacks of its nodes only. *)
Lemma exposed_chains_ext P e :
  ∀ ha hb prefix,
    (∀ i, i ∈ ids e -> h_traceback ha !! i = h_traceback hb !! i) ->
    exposed_chains ha P prefix e = exposed_chains hb P prefix e.
Proof.
  induction e as [i | i es IH] using exc_tree_ind; intros ha hb prefix Hagree;
    rewrite !exposed_chains_unfold; case_decide; try done;
    unfold get_traceback; rewrite (Hagree _ (id_of_in_ids _)).
  - done.
  - assert (∀ j, j ∈ es ≫= ids -> h_traceback ha !! j = h_traceback hb !! j)
      as Hes.
    { intros j Hj. apply Hagree. simpl. set_solver. }
    generalize (prefix ++ frames (h_traceback hb !! id_of (MultiError i es))).
    intros q. clear - IH Hes. induction IH as [| c es Hc _ IHes]; [done |].
    rewrite !bind_cons. rewrite bind_cons in Hes. f_equal.
    + apply Hc. intros j Hj. apply Hes. set_solver.
    + apply IHes. intros j Hj. apply Hes. set_solver.
Qed.

Lemma exposed_chains_leaf h P e :
  ∀ prefix L c, (L, c) ∈ exposed_chains h P prefix e ->
    L ∈ exposed_leaves P e ∧ id_of L ∈ ids e.
Proof.
  induction e as [i | i es IH] using exc_tree_ind; intros prefix L c;
    rewrite exposed_chains_unfold, exposed_leaves_unfold; case_decide;
    try (by intros ?%elem_of_nil).
  - intros Heq. apply list_elem_of_singleton in Heq. injection Heq as -> ->.
    simpl. set_solver.
  - intros (d & Hin & Hd)%list_elem_of_bind.
    rewrite Forall_forall in IH. destruct (IH _ Hd _ _ _ Hin) as [H1 H2].
    split.
    + apply list_elem_of_bind. eauto.
    + simpl. right. apply list_elem_of_bind. eauto.
Qed.

Section PushDown.
Variable P : gset nat.

Lemma push_children_pushed new_tb es :
  Forall (λ e, NoDup (ids e) ->
               ∀ tb h0, pushed P e tb h0 (push_tb_down tb e P h0)) es ->
  NoDup (es ≫= ids) ->
  ∀ h0,
    let h' := push_children push_tb_down new_tb P es h0 in
    (∀ L c, (L, c) ∈ es ≫= exposed_chains h0 P (frames new_tb) ->
            frames (get_traceback h' L) = c)
    ∧ (∀ i, i ∉ es ≫= ids -> h_traceback h' !! i = h_traceback h0 !! i).
Proof.
  induction 1 as [| c es Hc _ IH]; intros Hnd h0 h'; subst h'.
  - split; [by intros L c ?%elem_of_nil | done].
  - rewrite bind_cons in Hnd. apply NoDup_app in Hnd as (Hndc & Hdisj & Hndes).
    destruct (Hc Hndc new_tb h0) as [Hc1 Hc2].
    change (push_children push_tb_down new_tb P (c :: es) h0)
      with (push_children push_tb_down new_tb P es (push_tb_down new_tb c P h0)).
    set (ha := push_tb_down new_tb c P h0) in *.
    destruct (IH Hndes ha) as [IH1 IH2]. split.
    + intros L ch. rewrite bind_cons, elem_of_app. intros [Hin | Hin].
      * destruct (exposed_chains_leaf _ _ _ _ _ _ Hin) as [_ Hid].
        unfold get_traceback. rewrite IH2 by (by apply Hdisj).
        by apply Hc1.
      * apply IH1. revert Hin.
        replace (es ≫= exposed_chains h0 P (frames new_tb))
          with (es ≫= exposed_chains ha P (frames new_tb)); [done |].
        clear IH IH1 IH2 Hc. induction es as [| d es IHes]; [done |].
        rewrite !bind_cons. rewrite bind_cons in Hndes, Hdisj.
        f_equal.
        -- apply exposed_chains_ext. intros j Hj. apply Hc2.
           intros Hjc. apply (Hdisj j Hjc). set_solver.
        -- apply IHes.
           ++ intros x Hx. specialize (Hdisj x Hx). set_solver.
           ++ by apply NoDup_app in Hndes as (_ & _ & ?).
    + intros i. rewrite bind_cons, not_elem_of_app. intros [Hi1 Hi2].
      rewrite IH2 by done. by apply Hc2.
Qed.

Lemma push_tb_down_pushed e :
  NoDup (ids e) -> ∀ tb h0, pushed P e tb h0 (push_tb_down tb e P h0).
Proof.
  induction e as [i | i es IH] using exc_tree_ind; intros Hnd tb h0;
    rewrite push_tb_down_unfold; unfold pushed;
    setoid_rewrite exposed_chains_unfold; case_decide.
  - split; [by intros L c ?%elem_of_nil | done].
  - pose proof (concat_tb_result tb (get_traceback h0 (Atomic i)) h0) as [Hf Ht].
    destruct (concat_tb _ _ _) as [new_tb h1]. simpl in Hf, Ht. split.
    + intros L c Heq. apply list_elem_of_singleton in Heq.
      injection Heq as -> ->. rewrite <- Hf.
      unfold get_traceback, set_traceback. simpl.
      destruct new_tb; simpl; [by rewrite lookup_insert_eq | by rewrite lookup_delete_eq].
    + intros j Hj. simpl in Hj. unfold set_traceback. simpl.
      destruct new_tb; simpl;
        [rewrite lookup_insert_ne by set_solver | rewrite lookup_delete_ne by set_solver];
        by rewrite Ht.
  - split; [by intros L c ?%elem_of_nil | done].
  - pose proof (concat_tb_result tb (get_traceback h0 (MultiError i es)) h0) as [Hf Ht].
    destruct (concat_tb _ _ _) as [new_tb h1]. simpl in Hf, Ht.
    simpl in Hnd. apply NoDup_cons in Hnd as [Hi Hnd].
    destruct (push_children_pushed new_tb es IH Hnd h1) as [H1 H2]. split.
    + intros L c Hin. rewrite <- Hf in Hin.
      assert (id_of L ∈ es ≫= ids) as Hid.
      { apply list_elem_of_bind in Hin as (d & Hin & Hd).
        apply exposed_chains_leaf in Hin as [_ Hin].
        apply list_elem_of_bind. eauto. }
      unfold get_traceback, set_traceback. simpl.
      rewrite lookup_delete_ne by (intros ->; done).
      apply H1. revert Hin.
      replace (es ≫= exposed_chains h0 P (frames new_tb))
        with (es ≫= exposed_chains h1 P (frames new_tb)); [done |].
      generalize (frames new_tb). intros q. clear - Ht.
      induction es as [| d es IHes]; [done |]. rewrite !bind_cons.
      f_equal; [| done].
      apply exposed_chains_ext. intros j _. by rewrite Ht.
    + intros j Hj. simpl in Hj. unfold set_traceback. simpl.
      rewrite lookup_delete_ne by set_solver.
      rewrite H2 by set_solver. by rewrite Ht.
Qed.

End PushDown.

(** ** The shape of the filtered tree *)

Section Shape.
Variable handler : exc -> option exc.

Lemma filter_children_next es news changed P h :
  h_next h ≤ h_next (filter_children (filter_tree handler) es news changed P h).2.
Proof.
  eapply filter_children_effect, Forall_forall.
  intros e _. apply filter_tree_effect.
Qed.

Lemma filter_tree_next e P h : h_next h ≤ h_next (filter_tree handler e P h).2.
Proof. apply filter_tree_effect. Qed.

Lemma filter_children_preserved es :
  Forall (λ e, ∀ P h, grows_within (ids e) P (filter_tree handler e P h).1.2) es ->
  ∀ news changed P h,
    grows_within (es ≫= ids) P
      (filter_children (filter_tree handler) es news changed P h).1.2.
Proof.
  induction 1 as [| c es Hc _ IH]; intros news changed P h.
  - split; [done | auto].
  - rewrite filter_children_cons. destruct (Hc P h) as [Hc1 Hc2].
    destruct (filter_tree handler c P h) as [[r P1] h1]. simpl in Hc1, Hc2.
    match goal with |- grows_within _ _ (filter_children _ _ ?n ?ch _ _).1.2 =>
      destruct (IH n ch P1 h1) as [IH1 IH2] end.
    split; [by etrans |].
    intros i Hi. rewrite bind_cons, elem_of_app.
    destruct (IH2 i Hi) as [Hi1 | Hi1]; [| by auto].
    destruct (Hc2 i Hi1); auto.
Qed.

Lemma filter_tree_preserved e :
  ∀ P h, grows_within (ids e) P (filter_tree handler e P h).1.2.
Proof.
  induction e as [i | i es IH] using exc_tree_ind; intros P h.
  - simpl. destruct (handler (Atomic i)) as [n |]; [destruct (is_ n (Atomic i)) |];
      (split; [done | auto]).
  - rewrite filter_tree_MultiError.
    destruct (filter_children_preserved es IH [] false P h) as [H1 H2].
    destruct (filter_children _ _ _ _ _ _) as [[[news changed] P1] h1].
    simpl in H1, H2.
    assert (grows_within (ids (MultiError i es)) P P1) as Hg.
    { split; [done |]. intros j Hj. simpl. rewrite elem_of_cons.
      destruct (H2 j Hj); auto. }
    destruct news as [| x news]; [exact Hg |].
    destruct changed.
    + by destruct (MultiError_of _ _).
    + simpl. split.
      * etrans; [exact H1 | apply union_subseteq_r].
      * intros j [->%elem_of_singleton | Hj]%elem_of_union.
        -- right. by left.
        -- apply Hg, Hj.
Qed.

(** An address of the tree that enters [preserved] at the root means that
    the root came back as itself. *)
Lemma filter_tree_root_preserved e P h :
  NoDup (ids e) -> id_of e ∉ P ->
  id_of e ∈ (filter_tree handler e P h).1.2 ->
  (filter_tree handler e P h).1.1 = Some e.
Proof.
  destruct e as [i | i es]; intros Hnd HP.
  - pose proof (filter_tree_preserved (Atomic i) P h) as Hg. simpl.
    destruct (handler (Atomic i)) as [n |]; [destruct (is_ n (Atomic i)) |];
      simpl; intros Hin; done.
  - rewrite filter_tree_MultiError.
    pose proof (filter_children_preserved es) as Hch.
    specialize (Hch (proj2 (Forall_forall _ _) (λ e _, filter_tree_preserved e))
                  [] false P h).
    destruct (filter_children _ _ _ _ _ _) as [[[news changed] P1] h1].
    destruct Hch as [_ Hch]. simpl in Hch.
    simpl in Hnd. apply NoDup_cons in Hnd as [Hi _].
    assert (i ∉ P1) as HP1.
    { intros Hin. destruct (Hch i Hin); done. }
    destruct news as [| x news]; [done |].
    destruct changed; [| done].
    by destruct (MultiError_of _ _).
Qed.

Variable hf : heap.
Variable Pf : gset nat.

Lemma filter_children_places es :
  Forall (λ e, ∀ P0 h0,
            settled hf Pf (filter_tree handler e P0 h0).1.2 h0 (filter_tree handler e P0 h0).2 ->
            ∀ L, L ∈ exposed_leaves Pf e -> handler L = Some L ->
            ∃ r, (filter_tree handler e P0 h0).1.1 = Some r ∧ ∀ q, placed hf q L r) es ->
  ∀ news0 changed0 P0 h0,
    let res := filter_children (filter_tree handler) es news0 changed0 P0 h0 in
    settled hf Pf res.1.2 h0 res.2 ->
    (∀ x, x ∈ news0 -> x ∈ res.1.1.1)
    ∧ ∀ L, L ∈ es ≫= exposed_leaves Pf -> handler L = Some L ->
        ∃ r, r ∈ res.1.1.1 ∧ ∀ q, placed hf q L r.
Proof.
  induction 1 as [| c es Hc _ IH]; intros news0 changed0 P0 h0 res; subst res.
  - intros _. split; [done |]. by intros L ?%elem_of_nil.
  - rewrite filter_children_cons. specialize (Hc P0 h0).
    pose proof (filter_tree_next c P0 h0) as Hn0.
    destruct (filter_tree handler c P0 h0) as [[rc Pc] hc]. simpl in Hc, Hn0.
    match goal with |- context [filter_children _ _ ?n ?ch _ _] =>
      specialize (IH n ch Pc hc);
      pose proof (filter_children_next es n ch Pc hc) as Hn1;
      pose proof (filter_children_preserved es
        (proj2 (Forall_forall _ _) (λ e _, filter_tree_preserved e)) n ch Pc hc)
        as [Hsub _]
    end.
    destruct (filter_children _ _ _ _ _ _) as [[[news changed] P1] h1].
    cbn [fst snd] in *. intros [HP Hfresh].
    destruct IH as [IH1 IH2].
    { split; [done |]. intros i Hi. apply Hfresh. lia. }
    split.
    { intros x Hx. apply IH1. destruct rc; [apply elem_of_app |]; auto. }
    intros L. rewrite bind_cons, elem_of_app. intros [HL | HL] Hkeep.
    + destruct Hc with (L := L) as (r & -> & Hr); try done.
      { split; [by etrans |]. intros i Hi. apply Hfresh. lia. }
      exists r. split; [| done]. apply IH1. set_solver.
    + by apply IH2.
Qed.

Lemma leaf_chains_MultiError h q i es :
  leaf_chains h q (MultiError i es) =
  es ≫= leaf_chains h (q ++ frames (h_traceback h !! i)).
Proof. reflexivity. Qed.

Lemma MultiError_of_placed news h0 q L r :
  (h_next h0 < h_next (MultiError_of news h0).2 ->
   h_traceback hf !! h_next h0 = None) ->
  r ∈ news -> placed hf q L r -> placed hf q L (MultiError_of news h0).1.
Proof.
  intros Hfresh Hr Hpl. unfold MultiError_of in *.
  destruct news as [| x [| y news]]; cbn [fst snd alloc h_next] in *.
  - by apply elem_of_nil in Hr.
  - by apply list_elem_of_singleton in Hr as ->.
  - unfold placed. rewrite leaf_chains_MultiError, Hfresh by lia.
    change (frames None) with (@nil tb_entry). rewrite app_nil_r.
    apply list_elem_of_bind. by exists r.
Qed.

Lemma filter_tree_places e :
  ∀ P0 h0,
    settled hf Pf (filter_tree handler e P0 h0).1.2 h0 (filter_tree handler e P0 h0).2 ->
    ∀ L, L ∈ exposed_leaves Pf e -> handler L = Some L ->
    ∃ r, (filter_tree handler e P0 h0).1.1 = Some r ∧ ∀ q, placed hf q L r.
Proof.
  induction e as [i | i es IH] using exc_tree_ind; intros P0 h0 Hset L;
    rewrite exposed_leaves_unfold; case_decide; try (by intros ?%elem_of_nil).
  - intros ->%list_elem_of_singleton Hkeep. exists (Atomic i). simpl.
    rewrite Hkeep, is_refl. split; [done |]. intros q. unfold placed. simpl.
    by apply list_elem_of_singleton.
  - intros HL Hkeep. revert Hset. rewrite filter_tree_MultiError.
    pose proof (filter_children_places es IH [] false P0 h0) as Hch.
    pose proof (filter_children_next es [] false P0 h0) as Hn.
    destruct (filter_children _ _ _ _ _ _) as [[[news changed] P1] h1].
    simpl in Hch, Hn. simpl in H.
    destruct news as [| x news].
    + intros Hset. destruct Hch as [_ Hch]; [done |].
      destruct (Hch L HL Hkeep) as (r & Hr & _). by apply elem_of_nil in Hr.
    + destruct changed.
      * pose proof (MultiError_of_effect handler (x :: news) h1)
          as (_ & _ & _ & _ & _ & Hn2).
        pose proof (MultiError_of_placed (x :: news) h1) as Hpl.
        destruct (MultiError_of (x :: news) h1) as [m h2]. cbn [fst snd] in *.
        intros [HP Hfresh]. destruct Hch as [_ Hch].
        { split; [done |]. intros j Hj. apply Hfresh. lia. }
        destruct (Hch L HL Hkeep) as (r & Hr & Hplaced).
        exists m. split; [done |]. intros q.
        eapply Hpl; [| exact Hr | apply Hplaced].
        intros Hlt. apply Hfresh. lia.
      * simpl. intros [HP _]. exfalso. apply H, HP. set_solver.
Qed.

End Shape.

(** ** The chain invariant of filter *)

(** C1, as stated: every leaf kept or replaced has the same end-to-end
    chain after [filter].  In the sample pair, whose root has one traceback
    entry, the leaf at address 1 is replaced by the object at address 3:
    the chain of the leaf was that entry, the chain of its replacement in
    the result is empty. *)
Lemma filter_replacement_loses_chain :
  ¬ chains_preserved replace_1_by_3 sample_pair sample_pair_heap.
Proof.
  intros Hclaim.
  specialize (Hclaim (MultiError 11 [Atomic 3; Atomic 2]) eq_refl
                (Atomic 1) [sample_entry]).
  assert ((Atomic 1, [sample_entry]) ∈ leaf_chains sample_pair_heap [] sample_pair)
    as Hin by (vm_compute; left).
  specialize (Hclaim Hin (Atomic 3) eq_refl).
  vm_compute in Hclaim.
  apply elem_of_cons in Hclaim as [[=] | Hclaim].
  apply elem_of_cons in Hclaim as [[=] | Hclaim].
  by apply elem_of_nil in Hclaim.
Qed.

(** The replaced leaf itself, now the context of its replacement, carries
    the chain. *)
Example filter_replacement_context_has_chain :
  let h' := (MultiError_filter replace_1_by_3 sample_pair sample_pair_heap).2 in
  get_context h' (Atomic 3) = Some (Atomic 1)
  ∧ frames (get_traceback h' (Atomic 1)) = [sample_entry].
Proof. vm_compute. done. Qed.

(** Outside the amended statement: when a [MultiError] comes back unchanged
    below a parent that changed, [push_tb_down] returns at it without
    attaching the traceback pushed so far, and the root's entry is lost for
    its leaves. *)
Example push_tb_down_stops_at_preserved_child :
  let res := MultiError_filter drop_4 sample_nested sample_pair_heap in
  res.1 = Some (MultiError 1 [Atomic 2; Atomic 3])
  ∧ leaf_chains sample_pair_heap [] sample_nested =
      [(Atomic 2, [sample_entry]); (Atomic 3, [sample_entry]);
       (Atomic 4, [sample_entry])]
  ∧ leaf_chains res.2 [] (MultiError 1 [Atomic 2; Atomic 3]) =
      [(Atomic 2, []); (Atomic 3, [])].
Proof. vm_compute. done. Qed.

(** C1, amended: in a tree of distinct, allocated nodes, (1) if the root
    comes back preserved, [filter] returns it and changes no traceback;
    (2) otherwise every leaf that is not inside a preserved subtree ends
    with its whole former root-to-leaf chain as its own traceback, and when
    the handler kept that leaf, it is a leaf of the result with that same
    end-to-end chain. *)
Theorem filter_pushes_chains_down (handler : exc -> option exc)
    (root : exc) (h : heap) :
  NoDup (ids root) ->
  (∀ i, i ∈ ids root -> i < h_next h) ->
  (∀ i, h_next h ≤ i -> h_traceback h !! i = None) ->
  let P := (filter_tree handler root ∅ h).1.2 in
  let r := (MultiError_filter handler root h).1 in
  let h' := (MultiError_filter handler root h).2 in
  (id_of root ∈ P -> r = Some root ∧ h_traceback h' = h_traceback h)
  ∧ ∀ L c, (L, c) ∈ exposed_chains h P [] root ->
      frames (get_traceback h' L) = c
      ∧ (handler L = Some L ->
         ∃ r', r = Some r' ∧ (L, c) ∈ leaf_chains h' [] r').
Proof.
  intros Hnd Halloc Hfree P r h'. subst P r h'.
  unfold MultiError_filter, _filter_impl.
  pose proof (filter_tree_effect handler root ∅ h) as (_ & _ & Htb & _ & _ & Hnext).
  pose proof (filter_tree_root_preserved handler root ∅ h Hnd) as Hroot.
  pose proof (filter_tree_places handler) as Hplaces.
  specialize (λ hf, Hplaces hf (filter_tree handler root ∅ h).1.2 root ∅ h).
  destruct (filter_tree handler root ∅ h) as [[r P] h1]. cbn [fst snd] in *.
  split.
  - intros HP. split; [apply Hroot; [set_solver | done] |].
    by rewrite push_tb_down_unfold, decide_True.
  - intros L c Hin.
    rewrite (exposed_chains_ext P root h h1) in Hin by (intros; by rewrite Htb).
    destruct (push_tb_down_pushed P root Hnd None h1) as [Hp1 Hp2].
    set (h' := push_tb_down None root P h1) in *.
    specialize (Hp1 L c Hin). split; [exact Hp1 |].
    intros Hkeep. destruct (Hplaces h') with (L := L) as (r' & -> & Hpl).
    + split; [done |]. intros i [Hi1 Hi2].
      rewrite Hp2, Htb; [by apply Hfree |].
      intros Hi. apply Halloc in Hi. lia.
    + by eapply exposed_chains_leaf.
    + exact Hkeep.
    + exists r'. split; [done |]. specialize (Hpl []).
      unfold placed in Hpl. by rewrite Hp1 in Hpl.
Qed.

(** Witness of [filter_pushes_chains_down]: in the sample pair under
    [replace_1_by_3], the kept leaf at address 2 is exposed with the root's
    entry as chain, and has it in the result. *)
Lemma filter_pushes_chains_down_witness :
  ∃ r', (MultiError_filter replace_1_by_3 sample_pair sample_pair_heap).1 = Some r'
        ∧ (Atomic 2, [sample_entry])
          ∈ leaf_chains (MultiError_filter replace_1_by_3 sample_pair sample_pair_heap).2 [] r'.
Proof.
  refine (proj2 (proj2 (filter_pushes_chains_down replace_1_by_3 sample_pair
                  sample_pair_heap _ _ _) (Atomic 2) [sample_entry] _) eq_refl).
  - vm_compute. repeat constructor; set_solver.
  - intros i Hi. vm_compute in Hi. vm_compute.
    repeat (apply elem_of_cons in Hi as [-> | Hi]; [lia |]).
    by apply elem_of_nil in Hi.
  - intros i Hi. vm_compute in Hi. simpl. apply lookup_singleton_ne. lia.
  - vm_compute. right. left.
Defined.

(** ** Traceback capture and formatting *)

Lemma init_S n h x seen :
  traceback_exception_init (S n) h x seen =
  let init := traceback_exception_init n h in
  let seen0 := {[id_of x]} ∪ match seen with Some s => s | None => ∅ end in
  '(cause, seen1) ← capture_link init (get_cause h x) seen0;
  '(context, seen2) ← capture_link init (get_context h x) seen1;
  let seen_was_none := match seen with None => true | Some _ => false end in
  embedded ← embed_children init (if seen_was_none then ∅ else seen2)
               seen_was_none (children x);
  Some (TE x (frames (get_traceback h x)) cause context
           (bool_decide (id_of x ∈ h_suppress h)) embedded,
        seen2).
Proof. by destruct x. Qed.

Lemma embed_children_total
    (init : exc -> option (gset nat) -> option (TracebackException * gset nat))
    (s : gset nat) (seen_was_none : bool) (es : list exc) :
  (∀ c, c ∈ es -> id_of c ∉ s ->
        ∃ te s', init c (if seen_was_none then None else Some s) = Some (te, s')
                 ∧ te_exc te = c) ->
  ∃ tes,
    embed_children init s seen_was_none es = Some tes
    ∧ te_exc <$> tes = filter (λ c, id_of c ∉ s) es
    ∧ Forall2 (λ c te, ∃ s', init c (if seen_was_none then None else Some s)
                              = Some (te, s'))
        (filter (λ c, id_of c ∉ s) es) tes.
Proof.
  induction es as [| c es IH]; intros Hinit.
  - exists []. by repeat split; try constructor.
  - destruct IH as (tes & E & Hexc & Hall).
    { intros d Hd. apply Hinit. by right. }
    cbn [embed_children]. fold (embed_children init s seen_was_none).
    destruct (decide (id_of c ∈ s)) as [Hc | Hc].
    + exists tes. rewrite filter_cons_False by auto. done.
    + destruct (Hinit c) as (te & s' & Ec & Hte); [by left | done |].
      exists (te :: tes). rewrite Ec. csimpl. rewrite E. csimpl.
      rewrite filter_cons_True by done.
      split; [done |]. split; [by rewrite Hexc, Hte |].
      constructor; eauto.
Qed.

Lemma filter_not_in_empty (s : gset nat) (es : list exc) :
  s = ∅ -> filter (λ c, id_of c ∉ s) es = es.
Proof.
  intros ->. induction es as [| c es IH]; [done |].
  rewrite filter_cons_True by apply not_elem_of_empty. by rewrite IH.
Qed.

Lemma size_difference_le (U s : gset nat) : size (U ∖ s) ≤ size U.
Proof. apply subseteq_size. set_solver. Qed.

Lemma size_difference_mono (U s s' : gset nat) :
  s ⊆ s' -> size (U ∖ s') ≤ size (U ∖ s).
Proof. intros Hs. apply subseteq_size. set_solver. Qed.

Lemma size_difference_add (U s : gset nat) i :
  i ∈ U -> i ∉ s -> size (U ∖ ({[i]} ∪ s)) < size (U ∖ s).
Proof.
  intros HU Hs. apply subset_size. split; [set_solver |].
  intros Hsub. assert (i ∈ U ∖ ({[i]} ∪ s)) by (apply Hsub; set_solver).
  set_solver.
Qed.

Section Capture.
Variable U : gset nat.
Variable h : heap.
Hypothesis Hlinks : links_within U h.

Lemma capture_link_total n link (s : gset nat) :
  (∀ x s0, (∀ j, j ∈ ids x -> j ∈ U) -> id_of x ∉ s0 -> size (U ∖ s0) ≤ n ->
           ∃ te s', captured_seen h n x s0 te s') ->
  (∀ c, link = Some c -> ∀ j, j ∈ ids c -> j ∈ U) ->
  size (U ∖ s) ≤ n ->
  ∃ o s', capture_link (traceback_exception_init n h) link s = Some (o, s')
          ∧ s ⊆ s'.
Proof.
  intros IH Hlink Hsize. unfold capture_link. destruct link as [c |].
  - case_decide; [by eauto |].
    destruct (IH c s) as (te & s' & E & Hsub & _); [by eauto | done | done |].
    rewrite E. simpl. exists (Some te), s'. split; [done | set_solver].
  - by eauto.
Qed.

Lemma children_ids x c : c ∈ children x -> ∀ j, j ∈ ids c -> j ∈ ids x.
Proof.
  destruct x as [i | i es]; simpl; [by intros ?%elem_of_nil |].
  intros Hc j Hj. right. apply list_elem_of_bind. eauto.
Qed.

(** With a seen set that does not hold [x], fuel [size (U ∖ s)] is enough. *)
Lemma init_seen_total n :
  ∀ x s, (∀ j, j ∈ ids x -> j ∈ U) -> id_of x ∉ s -> size (U ∖ s) ≤ n ->
         ∃ te s', captured_seen h n x s te s'.
Proof.
  induction n as [| n IH]; intros x s HxU Hxs Hsize.
  - pose proof (size_difference_add U s (id_of x) (HxU _ (id_of_in_ids x)) Hxs). lia.
  - pose proof (size_difference_add U s (id_of x) (HxU _ (id_of_in_ids x)) Hxs) as Hlt.
    unfold captured_seen. rewrite init_S. cbv beta iota zeta.
    set (seen0 := {[id_of x]} ∪ s) in *.
    destruct (capture_link_total n (get_cause h x) seen0 IH) as (cause & s1 & -> & Hs1).
    { intros c Hc. eapply Hlinks; [apply HxU, id_of_in_ids | by left]. }
    { lia. }
    destruct (capture_link_total n (get_context h x) s1 IH) as (ctx & s2 & E2 & Hs2).
    { intros c Hc. eapply Hlinks; [apply HxU, id_of_in_ids | by right]. }
    { pose proof (size_difference_mono U seen0 s1 Hs1). lia. }
    cbn [mbind option_bind]. rewrite E2. cbn [mbind option_bind].
    destruct (embed_children_total (traceback_exception_init n h) s2 false (children x))
      as (tes & -> & Hexc & Hall).
    { intros c Hc Hcs. destruct (IH c s2) as (te & s' & E & _ & Hte & _); eauto.
      - intros j Hj. eapply HxU, children_ids; eauto.
      - assert (seen0 ⊆ s2) as Hsub by (by etrans).
        pose proof (size_difference_mono U seen0 s2 Hsub). lia. }
    eexists _, s2. split; [done |]. split; [by etrans |]. split; [done |].
    simpl. rewrite Nat.sub_0_r. split; done.
Qed.

Lemma height_child x c : c ∈ children x -> height c < height x.
Proof.
  destruct x as [i | i es]; simpl; [by intros ?%elem_of_nil |].
  induction es as [| d es IH]; intros Hc; [by apply elem_of_nil in Hc |].
  apply elem_of_cons in Hc as [-> | Hc]; simpl; [lia |].
  specialize (IH Hc). lia.
Qed.

Lemma height_pos x : 1 ≤ height x.
Proof. destruct x; simpl; lia. Qed.

(** Without a seen set, fuel [height x + size U] is enough, and every
    member is captured, without a seen set either. *)
Lemma init_top_total x :
  (∀ j, j ∈ ids x -> j ∈ U) ->
  ∀ n, height x + size U ≤ n ->
  ∃ te s', traceback_exception_init n h x None = Some (te, s')
           ∧ te_exc te = x
           ∧ Forall2 (λ c t, ∃ s'', traceback_exception_init (n - 1) h c None
                                    = Some (t, s''))
               (children x) (te_embedded te).
Proof.
  induction x as [i | i es IH] using exc_tree_ind; intros HxU n Hn.
  1: assert (Forall (λ e, (∀ j, j ∈ ids e -> j ∈ U) ->
               ∀ n, height e + size U ≤ n ->
               ∃ te s', traceback_exception_init n h e None = Some (te, s')
                        ∧ te_exc te = e
                        ∧ Forall2 (λ c t, ∃ s'', traceback_exception_init (n - 1) h c None
                                                 = Some (t, s''))
                            (children e) (te_embedded te)) (children (Atomic i)))
       as IH by constructor.
  2: change es with (children (MultiError i es)) in IH.
  all: match goal with |- context [traceback_exception_init _ _ ?y None] =>
         set (x := y) in * end.
  all: pose proof (height_pos x) as Hpos.
  all: destruct n as [| n]; [lia |].
  all: rewrite init_S; cbv beta iota zeta.
  all: destruct (capture_link_total n (get_cause h x) ({[id_of x]} ∪ ∅) (init_seen_total n))
      as (cause & s1 & -> & Hs1);
    [ intros c Hc; eapply Hlinks; [apply HxU, id_of_in_ids | by left]
    | pose proof (size_difference_le U ({[id_of x]} ∪ ∅)); lia | ].
  all: cbn [mbind option_bind].
  all: destruct (capture_link_total n (get_context h x) s1 (init_seen_total n))
      as (ctx & s2 & -> & Hs2);
    [ intros c Hc; eapply Hlinks; [apply HxU, id_of_in_ids | by right]
    | pose proof (size_difference_le U s1); lia | ].
  all: cbn [mbind option_bind].
  all: destruct (embed_children_total (traceback_exception_init n h) ∅ true (children x))
      as (tes & -> & Hexc & Hall);
    [ intros c Hc _; rewrite Forall_forall in IH;
      pose proof (height_child x c Hc);
      destruct (IH c Hc) with (n := n) as (te & s' & E & Hte & _);
      [ intros j Hj; eapply HxU, children_ids; eauto | lia | eauto ]
    | ].
  all: rewrite (filter_not_in_empty ∅) in Hall by done.
  all: eexists _, s2; split; [done |]; split; [done |].
  all: simpl; by rewrite Nat.sub_0_r.
Qed.

End Capture.

Lemma format_embedded_blocks format k tes :
  format_embedded format k tes = embedded_blocks k (format <$> tes).
Proof.
  revert k. induction tes as [| te tes IH]; intros k; [done |].
  csimpl. by rewrite IH.
Qed.

Lemma format_split chain te :
  traceback_exception_format chain te =
  traceback_exception_format chain (no_embedded te)
  ++ embedded_blocks 0 (traceback_exception_format chain <$> te_embedded te).
Proof.
  destruct te as [e stack cause context suppress embedded].
  cbn [traceback_exception_format no_embedded te_embedded format_embedded].
  rewrite format_embedded_blocks, app_nil_r, <- !app_assoc. done.
Qed.

(** C3, as stated: every leaf is described once.  In the sample pair where
    the exception at address 2 has the one at address 1 as its cause, the
    exception at address 1 is described twice: in its own embedded block,
    and again, in full, in the cause chain of the second block. *)
Lemma render_describes_shared_cause_twice :
  ¬ described_once sample_cause_heap sample_pair.
Proof.
  intros Hclaim.
  specialize (Hclaim 3 _ eq_refl (Atomic 1)).
  assert (Atomic 1 ∈ leaves sample_pair) as Hin by (vm_compute; left).
  specialize (Hclaim Hin). vm_compute in Hclaim. discriminate Hclaim.
Qed.

Example render_sample_cause :
  format_exception 3 sample_cause_heap sample_pair =
  Some [ExceptionOnly sample_pair;
        EmbeddedHeader 1; Indent (ExceptionOnly (Atomic 1));
        EmbeddedHeader 2; Indent (ExceptionOnly (Atomic 1));
        Indent CauseMessage; Indent (ExceptionOnly (Atomic 2))].
Proof. vm_compute. reflexivity. Qed.

(** C3, amended: with enough fuel for the objects in reach, (1) rendering
    a [MultiError] at top level gives its own description followed by one
    numbered block per member, in order and none left out, each block being
    the indented output that member gives when rendered on its own, cause
    and context chain included; (2) when the [MultiError] is captured with
    a seen set, as inside a cause or context chain, the members left out of
    [embedded] are those in the set once the [MultiError] and its own chain
    were added, and every other member is captured with that set. *)
Theorem render_embeds_every_member (U : gset nat) (h : heap) (i : nat)
    (es : list exc) (n : nat) :
  links_within U h ->
  (∀ j, j ∈ ids (MultiError i es) -> j ∈ U) ->
  height (MultiError i es) + size U ≤ n ->
  (∃ te s outs,
      traceback_exception_init n h (MultiError i es) None = Some (te, s)
      ∧ format_exception n h (MultiError i es) =
          Some (traceback_exception_format true (no_embedded te)
                ++ embedded_blocks 0 outs)
      ∧ Forall2 (λ c out, format_exception (n - 1) h c = Some out) es outs)
  ∧ (∀ seen, i ∉ seen ->
      ∃ te seen',
        traceback_exception_init n h (MultiError i es) (Some seen) = Some (te, seen')
        ∧ {[i]} ∪ seen ⊆ seen'
        ∧ te_exc <$> te_embedded te = filter (λ c, id_of c ∉ seen') es
        ∧ Forall2 (λ c t, ∃ s'', traceback_exception_init (n - 1) h c (Some seen')
                                 = Some (t, s''))
            (filter (λ c, id_of c ∉ seen') es) (te_embedded te)).
Proof.
  intros Hlinks HU Hn. split.
  - destruct (init_top_total U h Hlinks (MultiError i es) HU n Hn)
      as (te & s & E & _ & Hall).
    exists te, s, (traceback_exception_format true <$> te_embedded te).
    split; [done |]. split.
    + unfold format_exception. rewrite E. cbn [mbind option_bind].
      by rewrite format_split.
    + apply Forall2_fmap_r. eapply Forall2_impl; [exact Hall |].
      intros c t [s'' Ec]. unfold format_exception. by rewrite Ec.
  - intros seen Hseen.
    destruct (init_seen_total U h Hlinks n (MultiError i es) seen HU Hseen)
      as (te & seen' & E & Hsub & _ & Hexc & Hall).
    { pose proof (size_difference_le U seen). lia. }
    by exists te, seen'.
Qed.

(** Witness of [render_embeds_every_member]: the sample pair with its
    cause link, among the objects at addresses 0, 1 and 2. *)
Lemma render_embeds_every_member_witness :
  ∃ te s outs,
    traceback_exception_init 5 sample_cause_heap sample_pair None = Some (te, s)
    ∧ format_exception 5 sample_cause_heap sample_pair =
        Some (traceback_exception_format true (no_embedded te)
              ++ embedded_blocks 0 outs)
    ∧ Forall2 (λ c out, format_exception (5 - 1) sample_cause_heap c = Some out)
        [Atomic 1; Atomic 2] outs.
Proof.
  refine (proj1 (render_embeds_every_member {[0; 1; 2]} sample_cause_heap 0
                   [Atomic 1; Atomic 2] 5 _ _ _)).
  - intros i c Hi [Hc | Hc] j Hj; simpl in Hc.
    + apply lookup_singleton_Some in Hc as [<- <-].
      apply list_elem_of_singleton in Hj as ->. set_solver.
    + by rewrite lookup_empty in Hc.
  - intros j Hj. simpl in Hj. set_solver.
  - vm_compute. lia.
Defined.

(** * Further properties *)

(** ** concat_tb: sharing and allocation *)

Lemma head_tbs_from_Some a e n :
  head_tbs_from (Some (Tb a e n)) = Tb a e n :: head_tbs_from n.
Proof. simpl. by destruct n. Qed.

Lemma copy_loop_objects tbs cur h :
  ∃ news,
    head_tbs_from (copy_loop tbs cur h).1 = news ++ head_tbs_from cur
    ∧ tb_id_of <$> news = reverse (seq (h_next h) (length tbs))
    ∧ tb_entry_of <$> news = reverse (tb_entry_of <$> tbs).
Proof.
  revert cur h. induction tbs as [| t tbs IH]; intros cur h.
  - by exists [].
  - cbn [copy_loop copy_tb alloc]. 
    destruct (IH (Some (Tb (h_next h) (tb_entry_of t) cur))
                 (Heap (h_traceback h) (h_context h) (h_cause h) (h_suppress h)
                       (S (h_next h)) (h_calls h))) as (news & E & Hid & Hen).
    exists (news ++ [Tb (h_next h) (tb_entry_of t) cur]).
    rewrite E, head_tbs_from_Some, <- app_assoc. split; [done |].
    rewrite !fmap_app, Hid, Hen. cbn [h_next length seq fmap list_fmap].
    by rewrite !reverse_cons.
Qed.

Lemma nth_next_lookup j tb : nth_next j tb = head_tbs_from tb !! j.
Proof.
  revert tb. induction j as [| j IH]; intros [[a e n] |]; try done.
  rewrite head_tbs_from_Some. cbn [nth_next]. by rewrite IH.
Qed.

(** X1: Following [tb_next] from the chain [concat_tb(head, tail)] returns,
    as many times as [head] has entries, one arrives at [tail] itself: its
    objects are shared, not copied.  The objects before it are new: the
    one after [j] steps lives at the address taken [j] allocations before
    the last.  Exactly as many addresses are taken as [head] has
    entries. *)
Theorem concat_tb_shares_tail (head tail : option traceback) (h : heap) :
  let k := length (tb_entries head) in
  let res := concat_tb head tail h in
  nth_next k res.1 = tail
  ∧ (∀ j, j < k ->
          tb_id_of <$> nth_next j res.1 = Some (h_next h + (k - 1 - j)))
  ∧ h_next res.2 = h_next h + k.
Proof.
  intros k res. subst k res. unfold concat_tb.
  destruct (copy_loop_objects (reverse (head_tbs_from head)) tail h)
    as (news & E & Hid & _).
  rewrite length_reverse in Hid.
  assert (length (head_tbs_from head) = length (tb_entries head)) as Hhead.
  { rewrite <- frames_tb_entries. unfold frames. by rewrite length_fmap. }
  assert (length news = length (tb_entries head)) as Hlen.
  { by rewrite <- (length_fmap tb_id_of), Hid, length_reverse, length_seq. }
  split; [| split].
  - rewrite nth_next_lookup, E, lookup_app_r by lia.
    rewrite Hlen, Nat.sub_diag. by rewrite <- nth_next_lookup.
  - intros j Hj. rewrite nth_next_lookup, E, lookup_app_l by lia.
    rewrite <- list_lookup_fmap, Hid, reverse_lookup by (rewrite length_seq; lia).
    rewrite length_seq, lookup_seq_lt by lia. f_equal. lia.
  - rewrite copy_loop_next, length_reverse. lia.
Qed.

(** X2: Concatenation composes: the frames do not depend on how three chains
    are grouped, whatever the heaps the calls run in. *)
Theorem concat_tb_frames_assoc (a b c : option traceback) (h1 h2 h3 h4 : heap) :
  frames (concat_tb (concat_tb a b h1).1 c h2).1 =
  frames (concat_tb a (concat_tb b c h3).1 h4).1.
Proof.
  rewrite !(proj1 (concat_tb_result _ _ _)). by rewrite app_assoc.
Qed.

(** ** The constructor *)

Lemma check_exceptions_first_other vs :
  match first_other vs with
  | Some r => check_exceptions vs = Raise (TypeError r)
  | None => ∃ es, check_exceptions vs = Ok es ∧ vs = VExc <$> es
  end.
Proof.
  induction vs as [| [e | r] vs IH]; cbn [first_other check_exceptions].
  - by exists [].
  - destruct (first_other vs) as [r |].
    + by rewrite IH.
    + destruct IH as (es & -> & ->). by exists (e :: es).
  - done.
Qed.

(** X3: [MultiError(...)] raises exactly when some element is not an exception
    object: the [TypeError] is about the first such element and nothing is
    allocated; otherwise it returns an exception. *)
Theorem MultiError_new_type_check (vs : list pyval) (h : heap) :
  match first_other vs with
  | Some r => MultiError_new vs h = (Raise (TypeError r), h)
  | None => ∃ es, vs = VExc <$> es
                  ∧ MultiError_new vs h =
                    (Ok (MultiError_of es h).1, (MultiError_of es h).2)
  end.
Proof.
  pose proof (check_exceptions_first_other vs) as H. unfold MultiError_new.
  destruct (first_other vs) as [r |].
  - by rewrite H.
  - destruct H as (es & -> & ->). exists es. split; [done |].
    by destruct (MultiError_of es h).
Qed.

(** X4: The second run of [__init__], on the [MultiError] that [__new__]
    returned for a one-element list, passes its assertion and leaves the
    [exceptions] attribute alone: the call in two steps is [MultiError_of]. *)
Theorem MultiError_call_init_guard (exceptions : list exc) (h : heap) :
  MultiError_call exceptions h = Some (MultiError_of exceptions h).
Proof.
  unfold MultiError_call, MultiError_of, MultiError_init.
  destruct exceptions as [| [i | i es] [| e2 rest]]; simpl; try done.
  by rewrite bool_decide_eq_true_2.
Qed.

(** ** filter: what comes back *)

Section FilterResult.
Variable handler : exc -> option exc.

Lemma handler_outputs_MultiError i es :
  handler_outputs handler (MultiError i es) = es ≫= handler_outputs handler.
Proof.
  unfold handler_outputs. cbn [leaves].
  induction es as [| c es IH]; [done |].
  by rewrite !bind_cons, omap_app, IH.
Qed.

(** One run of the children loop, seen from its results: [rs] are the
    results of the children, in order. *)
Lemma filter_children_results es :
  ∀ news0 changed0 P h,
    let res := filter_children (filter_tree handler) es news0 changed0 P h in
    ∃ rs : list (option exc),
      Forall2 (λ c r, ∃ P0 h0, h_next h ≤ h_next h0
                               ∧ (filter_tree handler c P0 h0).1.1 = r) es rs
      ∧ res.1.1.1 = news0 ++ omap id rs
      ∧ res.1.1.2 =
          (changed0 || existsb (λ cr, negb (opt_is cr.2 (Some cr.1))) (zip es rs)).
Proof.
  induction es as [| c es IH]; intros news0 changed0 P h res; subst res.
  - exists []. cbn. rewrite app_nil_r, orb_false_r. by repeat split.
  - rewrite filter_children_cons.
    pose proof (filter_tree_next handler c P h) as Hn.
    destruct (filter_tree handler c P h) as [[r P1] h1] eqn:E.
    cbn [snd] in Hn.
    match goal with |- context [filter_children _ _ ?n ?ch _ _] =>
      destruct (IH n ch P1 h1) as (rs & Hall & Hnews & Hch) end.
    exists (r :: rs). split; [| split].
    + constructor.
      * exists P, h. by rewrite E.
      * eapply Forall2_impl; [exact Hall |]. cbn.
        intros c' r' (P0 & h0 & Hle & Hr). exists P0, h0. split; [lia | done].
    + rewrite Hnews. destruct r; cbn; [by rewrite <- app_assoc | done].
    + rewrite Hch. cbn. destruct (opt_is r (Some c)); cbn.
      * done.
      * by rewrite orb_true_r.
Qed.

(** [filter_tree] returns [None] exactly when the handler returned
    [None] for every leaf. *)
Lemma filter_tree_None e :
  ∀ P h, (filter_tree handler e P h).1.1 = None ↔ handler_outputs handler e = [].
Proof.
  induction e as [i | i es IH] using exc_tree_ind; intros P h.
  - unfold handler_outputs. cbn.
    destruct (handler (Atomic i)) as [n |]; [destruct (is_ n (Atomic i)) |]; cbn;
      split; done.
  - rewrite filter_tree_MultiError, handler_outputs_MultiError.
    destruct (filter_children_results es [] false P h) as (rs & Hall & Hnews & _).
    destruct (filter_children _ _ _ _ _ _) as [[[news changed] P1] h1].
    cbn [fst snd] in *. rewrite app_nil_l in Hnews. subst news.
    assert (omap id rs = [] ↔ es ≫= handler_outputs handler = []) as Hiff.
    { clear - IH Hall. induction Hall as [| c r es rs (P0 & h0 & _ & Hr) _ IHall];
        [done |].
      apply Forall_cons in IH as [IHc IHes]. specialize (IHall IHes).
      rewrite bind_cons. cbn. rewrite <- Hr.
      specialize (IHc P0 h0). destruct (filter_tree handler c P0 h0).1.1 eqn:Er; cbn.
      - split; [done |]. intros [Hc _]%app_eq_nil.
        apply IHc in Hc. done.
      - rewrite (proj1 IHc eq_refl). done. }
    destruct (omap id rs) as [| x news] eqn:Eo.
    + split; [intros _; by apply Hiff | done].
    + split.
      * destruct changed; [destruct (MultiError_of _ _) |]; done.
      * intros Hnil. apply Hiff in Hnil. done.
Qed.

(** X5: When every leaf is dropped, [filter] returns [None], and only then. *)
Theorem filter_None_iff_all_dropped (root : exc) (h : heap) :
  (MultiError_filter handler root h).1 = None
  ↔ handler_outputs handler root = [].
Proof.
  unfold MultiError_filter, _filter_impl.
  pose proof (filter_tree_None root ∅ h) as H.
  by destruct (filter_tree handler root ∅ h) as [[r P] h1].
Qed.

(** With at least two members and a single output among them, the loop
    ends with that output alone and [changed] set. *)
Lemma single_output_among_children (n : exc) es rs :
  Forall2 (λ c r, (r = None ↔ handler_outputs handler c = [])
                  ∧ (handler_outputs handler c = [n] -> r = Some n)) es rs ->
  es ≫= handler_outputs handler = [n] ->
  omap id rs = [n]
  ∧ (2 ≤ length es ->
     existsb (λ cr, negb (opt_is cr.2 (Some cr.1))) (zip es rs) = true).
Proof.
  induction 1 as [| c r es rs [Hnone Hone] Hall IH]; [done |].
  rewrite bind_cons. intros [[Hc Hes] | [Hc Hes]]%app_singleton.
  - apply Hnone in Hc as ->. destruct (IH Hes) as [IH1 _].
    split; [done |]. intros _. done.
  - rewrite (Hone Hc). cbn.
    assert (Forall (λ r, r = None) rs) as Hrs.
    { clear - Hall Hes. induction Hall as [| d r es rs [Hnone _] _ IH']; [done |].
      rewrite bind_cons in Hes. apply app_eq_nil in Hes as [Hd Hes].
      constructor; [by apply Hnone | by apply IH']. }
    split.
    + f_equal. clear - Hrs. induction Hrs as [| r rs -> _ IH']; done.
    + intros Hlen. destruct Hall as [| d r' es rs _ _]; [simpl in Hlen; lia |].
      apply Forall_cons in Hrs as [-> _]. cbn. by rewrite orb_true_r.
Qed.

(** In a tree whose [MultiError]s have at least two members each, a single
    output comes back as it is, not wrapped. *)
Lemma filter_tree_single e (n : exc) :
  well_formed e = true -> handler_outputs handler e = [n] ->
  ∀ P h, (filter_tree handler e P h).1.1 = Some n.
Proof.
  induction e as [i | i es IH] using exc_tree_ind; intros Hwf Hout P h.
  - unfold handler_outputs in Hout. cbn in Hout |- *.
    destruct (handler (Atomic i)) as [x |]; [| done].
    injection Hout as ->. by destruct (is_ n (Atomic i)).
  - cbn [well_formed] in Hwf. apply andb_true_iff in Hwf as [Hlen Hwfs].
    apply Nat.leb_le in Hlen. rewrite forallb_forall in Hwfs.
    rewrite handler_outputs_MultiError in Hout.
    rewrite filter_tree_MultiError.
    destruct (filter_children_results es [] false P h) as (rs & Hall & Hnews & Hch).
    destruct (filter_children _ _ _ _ _ _) as [[[news changed] P1] h1].
    cbn [fst snd] in *. rewrite app_nil_l in Hnews. subst news.
    destruct (single_output_among_children n es rs) as [Hrs Hex]; [| done |].
    { rewrite Forall_forall in IH. clear - IH Hall Hwfs.
      apply Forall2_same_length_lookup_2; [by eapply Forall2_length |].
      intros k c r Hc Hr.
      destruct (Forall2_lookup_lr _ _ _ _ _ _ Hall Hc Hr) as (P0 & h0 & _ & <-).
      assert (c ∈ es) as Hin by (by eapply list_elem_of_lookup_2).
      split; [apply filter_tree_None |].
      intros Hone. apply IH; [done | | done].
      apply Hwfs. by apply list_elem_of_In. }
    rewrite Hrs, Hch, (Hex Hlen). done.
Qed.

(** X6: When exactly one output is left of a tree whose [MultiError]s have at
    least two members each, [filter] returns that output itself. *)
Theorem filter_single_survivor_unwrapped (root n : exc) (h : heap) :
  well_formed root = true ->
  handler_outputs handler root = [n] ->
  (MultiError_filter handler root h).1 = Some n.
Proof.
  intros Hwf Hout. unfold MultiError_filter, _filter_impl.
  pose proof (filter_tree_single root n Hwf Hout ∅ h) as H.
  by destruct (filter_tree handler root ∅ h) as [[r P] h1].
Qed.

(** The results of [filter_tree] keep the rule of two members. *)
Lemma filter_tree_well_formed e :
  well_formed e = true ->
  (∀ L n, L ∈ leaves e -> handler L = Some n -> well_formed n = true) ->
  ∀ P h r, (filter_tree handler e P h).1.1 = Some r -> well_formed r = true.
Proof.
  induction e as [i | i es IH] using exc_tree_ind; intros Hwf Hh P h r.
  - cbn. specialize (Hh (Atomic i)).
    destruct (handler (Atomic i)) as [n |]; [| done].
    destruct (is_ n (Atomic i)); cbn; intros [= <-];
      (apply Hh; [cbn; by apply list_elem_of_singleton | done]).
  - rewrite filter_tree_MultiError.
    destruct (filter_children_results es [] false P h) as (rs & Hall & Hnews & _).
    destruct (filter_children _ _ _ _ _ _) as [[[news changed] P1] h1].
    cbn [fst snd] in *. rewrite app_nil_l in Hnews. subst news.
    assert (Forall (λ x, well_formed x = true) (omap id rs)) as Hrs.
    { cbn [well_formed] in Hwf. apply andb_true_iff in Hwf as [_ Hwfs].
      rewrite forallb_forall in Hwfs. rewrite Forall_forall in IH.
      apply Forall_forall. intros x (r0 & Hr0 & Hx)%list_elem_of_omap.
      cbn in Hx. subst r0. apply list_elem_of_lookup_1 in Hr0 as [k Hk].
      destruct (Forall2_lookup_r _ _ _ _ _ Hall Hk) as (c & Hc & P0 & h0 & _ & Hr).
      assert (c ∈ es) as Hin by (by eapply list_elem_of_lookup_2).
      eapply (IH c Hin); [| | exact Hr].
      - apply Hwfs. by apply list_elem_of_In.
      - intros L m HL. apply Hh. cbn [leaves]. apply list_elem_of_bind. eauto. }
    destruct (omap id rs) as [| x news]; [done |].
    destruct changed; [| by intros [= <-]].
    unfold MultiError_of. destruct news as [| y news].
    + intros [= <-]. by apply Forall_cons in Hrs as [? _].
    + cbn [fst alloc]. intros [= <-]. cbn [well_formed].
      apply andb_true_iff. split; [done |]. apply forallb_forall.
      intros z Hz%list_elem_of_In. rewrite Forall_forall in Hrs. by apply Hrs.
Qed.

(** X7: [filter] keeps the rule that a [MultiError] has at least two members:
    when the tree and everything the handler returns obey it, so does the
    result. *)
Theorem filter_preserves_well_formed (root r : exc) (h : heap) :
  well_formed root = true ->
  (∀ L n, L ∈ leaves root -> handler L = Some n -> well_formed n = true) ->
  (MultiError_filter handler root h).1 = Some r ->
  well_formed r = true.
Proof.
  intros Hwf Hh. unfold MultiError_filter, _filter_impl.
  pose proof (filter_tree_well_formed root Hwf Hh ∅ h r) as H.
  by destruct (filter_tree handler root ∅ h) as [[r0 P] h1].
Qed.

End FilterResult.

(** ** filter: what it leaves alone, and what it clears *)

Section FilterFrame.
Variable handler : exc -> option exc.

(** [push_tb_down] assigns tracebacks to nodes of the tree only. *)
Lemma push_tb_down_outside P e :
  ∀ tb h i, i ∉ ids e ->
    h_traceback (push_tb_down tb e P h) !! i = h_traceback h !! i.
Proof.
  induction e as [j | j es IH] using exc_tree_ind; intros tb h i Hi;
    rewrite push_tb_down_unfold; case_decide; try done.
  - destruct (concat_tb_result tb (get_traceback h (Atomic j)) h) as [_ Ht].
    destruct (concat_tb _ _ _) as [new_tb h1]. cbn [fst snd] in Ht.
    cbn [ids] in Hi. unfold set_traceback. cbn [h_traceback id_of].
    destruct new_tb;
      [rewrite lookup_insert_ne by set_solver | rewrite lookup_delete_ne by set_solver];
      by rewrite Ht.
  - destruct (concat_tb_result tb (get_traceback h (MultiError j es)) h) as [_ Ht].
    destruct (concat_tb _ _ _) as [new_tb h1]. cbn [fst snd] in Ht.
    cbn [ids] in Hi. apply not_elem_of_cons in Hi as [Hij Hi].
    unfold set_traceback. cbn [h_traceback id_of].
    rewrite lookup_delete_ne by done. rewrite <- Ht. clear Ht.
    revert h1. induction IH as [| c es Hc _ IHes]; intros h1; [done |].
    rewrite bind_cons in Hi. apply not_elem_of_app in Hi as [Hic Hies].
    cbn [push_children]. fold (push_children push_tb_down new_tb P).
    rewrite IHes by done. by apply Hc.
Qed.

(** X9: [filter] never assigns [__cause__] or [__suppress_context__], and never
    assigns the [__traceback__] of an object that is not a node of the tree
    it was given: what the handler returns in place of a leaf keeps its own
    traceback. *)
Theorem filter_touches_only_the_tree (root : exc) (h : heap) :
  let h' := (MultiError_filter handler root h).2 in
  h_cause h' = h_cause h
  ∧ h_suppress h' = h_suppress h
  ∧ ∀ i, i ∉ ids root -> h_traceback h' !! i = h_traceback h !! i.
Proof.
  unfold MultiError_filter, _filter_impl.
  pose proof (filter_tree_effect handler root ∅ h) as (_ & _ & Ht & Hc & Hs & _).
  destruct (filter_tree handler root ∅ h) as [[r P] h1]. cbn [fst snd] in *.
  destruct (push_tb_down_tb_only P root None h1) as (_ & Hc' & Hs' & _).
  split; [congruence |]. split; [congruence |].
  intros i Hi. by rewrite push_tb_down_outside, Ht.
Qed.

Lemma exposed_aggregates_unfold P e :
  exposed_aggregates P e =
  if decide (id_of e ∈ P) then []
  else match e with
       | Atomic _ => []
       | MultiError i es => i :: (es ≫= exposed_aggregates P)
       end.
Proof. by destruct e. Qed.

Lemma exposed_aggregates_ids P e i : i ∈ exposed_aggregates P e -> i ∈ ids e.
Proof.
  revert i. induction e as [j | j es IH] using exc_tree_ind; intros i;
    rewrite exposed_aggregates_unfold; case_decide; try (by intros ?%elem_of_nil).
  cbn [ids]. intros [-> | (c & Hi & Hc)%list_elem_of_bind]%elem_of_cons;
    [by left |].
  right. apply list_elem_of_bind. exists c. split; [| done].
  rewrite Forall_forall in IH. by apply IH.
Qed.

(** After [push_tb_down], the [MultiError]s it went through have no
    traceback left: their entries were moved down, not copied. *)
Lemma push_tb_down_clears P e :
  NoDup (ids e) ->
  ∀ tb h i, i ∈ exposed_aggregates P e ->
    h_traceback (push_tb_down tb e P h) !! i = None.
Proof.
  induction e as [j | j es IH] using exc_tree_ind; intros Hnd tb h i;
    rewrite exposed_aggregates_unfold, push_tb_down_unfold; case_decide;
    try (by intros ?%elem_of_nil).
  destruct (concat_tb tb (get_traceback h (MultiError j es)) h) as [new_tb h1].
  cbn [ids] in Hnd. apply NoDup_cons in Hnd as [Hj Hnd].
  unfold set_traceback. cbn [h_traceback id_of].
  intros [-> | Hi]%elem_of_cons; [apply lookup_delete_eq |].
  rewrite lookup_delete_ne.
  2:{ intros <-. apply Hj. apply list_elem_of_bind in Hi as (c & Hi & Hc).
      apply list_elem_of_bind. exists c. split; [| done].
      by eapply exposed_aggregates_ids. }
  clear Hj H. revert h1 Hi.
  induction IH as [| c es Hc _ IHes]; intros h1 Hi; [by apply elem_of_nil in Hi |].
  rewrite bind_cons in Hnd, Hi. apply NoDup_app in Hnd as (Hndc & Hdisj & Hndes).
  cbn [push_children]. fold (push_children push_tb_down new_tb P).
  apply elem_of_app in Hi as [Hi | Hi].
  - assert (i ∉ es ≫= ids) as Hout.
    { apply Hdisj. by eapply exposed_aggregates_ids. }
    clear IHes. revert Hout. generalize (push_tb_down new_tb c P h1) (Hc Hndc new_tb h1 i Hi).
    clear - handler. induction es as [| d es IHes]; intros h2 Hnone Hout; [done |].
    rewrite bind_cons in Hout. apply not_elem_of_app in Hout as [Hd Hes].
    cbn [push_children]. fold (push_children push_tb_down new_tb P).
    apply IHes; [| done]. by rewrite push_tb_down_outside.
  - by apply IHes.
Qed.

(** X10: After [filter], every [MultiError] of the original tree that is not
    inside a preserved subtree has [__traceback__] [None]. *)
Theorem filter_clears_exposed_aggregates (root : exc) (h : heap) :
  NoDup (ids root) ->
  ∀ i, i ∈ exposed_aggregates (filter_tree handler root ∅ h).1.2 root ->
       h_traceback (MultiError_filter handler root h).2 !! i = None.
Proof.
  intros Hnd i. unfold MultiError_filter, _filter_impl.
  destruct (filter_tree handler root ∅ h) as [[r P] h1]. cbn [fst snd].
  by apply push_tb_down_clears.
Qed.

End FilterFrame.

(** ** filter: the leaves of the result *)

Section FilterLeaves.
Variable handler : exc -> option exc.
(** The addresses of the nodes of the whole tree. *)
Variable U : list nat.

Lemma children_leaves_inv es rs :
  Forall2 (leaves_inv handler U) es rs ->
  omap id rs ≫= leaves = (es ≫= handler_outputs handler) ≫= leaves
  ∧ (existsb (λ cr, negb (opt_is cr.2 (Some cr.1))) (zip es rs) = false ->
     es ≫= leaves = (es ≫= handler_outputs handler) ≫= leaves)
  ∧ (∀ x, x ∈ omap id rs -> id_of x ∈ es ≫= ids ∨ id_of x ∉ U).
Proof.
  induction 1 as [| c r es rs (H1 & H2 & H3) _ (IH1 & IH2 & IH3)];
    [by repeat split; try intros x ?%elem_of_nil |].
  rewrite !bind_cons, !bind_app. split; [| split].
  - rewrite <- IH1, <- H1. destruct r as [r' |].
    + change (omap id (Some r' :: rs)) with (r' :: omap id rs).
      by rewrite bind_cons.
    + done.
  - cbn [zip zip_with existsb fst snd]. intros [Hc Hes]%orb_false_iff.
    rewrite <- (IH2 Hes), <- H1. f_equal.
    destruct r as [r' |]; [| done]. cbn [opt_is] in Hc.
    apply negb_false_iff, bool_decide_eq_true in Hc.
    by rewrite (H2 r' eq_refl Hc).
  - intros x. destruct r as [r' |].
    all: [> change (omap id (Some r' :: rs)) with (r' :: omap id rs)
          | change (omap id (None :: rs)) with (omap id rs) ].
    + intros [-> | Hx]%elem_of_cons.
      * destruct (H3 r' eq_refl); [left; apply elem_of_app; by left | by right].
      * destruct (IH3 x Hx); [left; apply elem_of_app; by right | by right].
    + intros Hx. destruct (IH3 x Hx); [left; apply elem_of_app; by right | by right].
Qed.

Lemma MultiError_of_leaves news h :
  news ≠ [] -> leaves (MultiError_of news h).1 = news ≫= leaves.
Proof.
  unfold MultiError_of. destruct news as [| x [| y news]]; [done | |]; intros _.
  - cbn. by rewrite app_nil_r.
  - done.
Qed.

Lemma filter_tree_leaves_inv e :
  NoDup (ids e) ->
  (∀ i, i ∈ ids e -> i ∈ U) ->
  (∀ L n, L ∈ leaves e -> handler L = Some n -> n = L ∨ id_of n ∉ U) ->
  ∀ P h, (∀ i, i ∈ U -> i < h_next h) ->
         leaves_inv handler U e (filter_tree handler e P h).1.1.
Proof.
  induction e as [i | i es IH] using exc_tree_ind; intros Hnd HU Hout P h Hh.
  - unfold leaves_inv, handler_outputs. cbn.
    specialize (Hout (Atomic i)).
    destruct (handler (Atomic i)) as [n |] eqn:E.
    2:{ by repeat split. }
    assert ((if is_ n (Atomic i) then (Some n, P, log_call (Atomic i) h)
             else (Some n, P, set_context n (Some (Atomic i)) (log_call (Atomic i) h))).1.1
            = Some n) as -> by (by destruct (is_ n (Atomic i))).
    specialize (Hout n ltac:(by apply list_elem_of_singleton) eq_refl).
    cbn. rewrite app_nil_r. split; [done |]. split.
    + intros r' [= <-] Hid. destruct Hout as [-> | Hn]; [done |].
      exfalso. apply Hn. rewrite Hid. apply HU. by left.
    + intros r' [= <-]. destruct Hout as [-> | Hn]; [left; by left | by right].
  - cbn [ids] in Hnd, HU. apply NoDup_cons in Hnd as [Hi Hnd].
    rewrite filter_tree_MultiError.
    destruct (filter_children_results handler es [] false P h) as (rs & Hall & Hnews & Hch).
    pose proof (filter_children_next handler es [] false P h) as Hn.
    destruct (filter_children _ _ _ _ _ _) as [[[news changed] P1] h1].
    cbn [fst snd] in *. rewrite app_nil_l in Hnews. subst news.
    assert (Forall2 (leaves_inv handler U) es rs) as Hinv.
    { rewrite Forall_forall in IH.
      apply Forall2_same_length_lookup_2; [by eapply Forall2_length |].
      intros k c r Hc Hr.
      destruct (Forall2_lookup_lr _ _ _ _ _ _ Hall Hc Hr) as (P0 & h0 & Hle & <-).
      assert (c ∈ es) as Hin by (by eapply list_elem_of_lookup_2).
      apply IH; [done | | | |].
      - rewrite <- (take_drop_middle _ _ _ Hc) in Hnd.
        rewrite bind_app, bind_cons in Hnd.
        by apply NoDup_app in Hnd as (_ & _ & (? & _ & _)%NoDup_app).
      - intros j Hj. apply HU. right. apply list_elem_of_bind. eauto.
      - intros L n HL. apply Hout. cbn [leaves]. apply list_elem_of_bind. eauto.
      - intros j Hj. specialize (Hh j Hj). lia. }
    destruct (children_leaves_inv es rs Hinv) as (Hl1 & Hl2 & Hl3).
    unfold leaves_inv. rewrite handler_outputs_MultiError.
    destruct (omap id rs) as [| x news] eqn:Eo.
    { cbn. split; [by rewrite <- Hl1 | by split]. }
    rewrite Hch. cbn [orb].
    destruct (existsb _ _) eqn:Eex.
    + pose proof (MultiError_of_leaves (x :: news) h1) as Hml.
      assert ((MultiError_of (x :: news) h1).1 = x ∧ news = []
              ∨ (MultiError_of (x :: news) h1).1 = MultiError (h_next h1) (x :: news))
        as Hshape.
      { unfold MultiError_of. destruct news; [left | right]; done. }
      destruct (MultiError_of (x :: news) h1) as [m h2]. cbn [fst snd] in *.
      split; [| split].
      * cbn. by rewrite Hml, Hl1.
      * intros r' [= <-] Hid. exfalso. cbn [id_of] in Hid.
        destruct Hshape as [[-> ->] | ->].
        -- destruct (Hl3 x) as [Hm | Hm]; [by left | |].
           ++ apply Hi. by rewrite <- Hid.
           ++ apply Hm. rewrite Hid. apply HU. by left.
        -- cbn [id_of] in Hid. specialize (Hh i (HU i ltac:(by left))). lia.
      * intros r' [= <-]. destruct Hshape as [[-> ->] | ->].
        -- destruct (Hl3 x) as [Hm | Hm]; [by left | left; by right | by right].
        -- right. cbn. intros Hin. specialize (Hh _ Hin). lia.
    + split; [| split].
      * cbn. by apply Hl2.
      * by intros r' [= <-] _.
      * intros r' [= <-]. left. by left.
Qed.

End FilterLeaves.

(** X8: In a tree of distinct allocated nodes, when what the handler returns
    for a leaf is that leaf or an object from outside the tree, the leaves
    of the result of [filter] are, in order, the leaves of what the handler
    returned for the leaves of the tree. *)
Theorem filter_result_leaves (handler : exc -> option exc) (root : exc) (h : heap) :
  NoDup (ids root) ->
  (∀ i, i ∈ ids root -> i < h_next h) ->
  (∀ L n, L ∈ leaves root -> handler L = Some n ->
          n = L ∨ id_of n ∉ ids root) ->
  from_option leaves [] (MultiError_filter handler root h).1 =
  handler_outputs handler root ≫= leaves.
Proof.
  intros Hnd Halloc Hout. unfold MultiError_filter, _filter_impl.
  pose proof (filter_tree_leaves_inv handler (ids root) root Hnd
                (λ i Hi, Hi) Hout ∅ h Halloc) as (H1 & _).
  by destruct (filter_tree handler root ∅ h) as [[r P] h1].
Qed.

(** ** The catcher, by what the handler does *)

Section CatcherCases.
Variable handler : exc -> option exc.
Variable raise_bookkeeping : exc -> exc -> heap -> heap.

Lemma filter_keep_all (root : exc) (h : heap) :
  (∀ L, L ∈ leaves root -> handler L = Some L) ->
  no_empty_aggregate root = true ->
  _filter_impl handler root h = (Some root, log_calls (leaves root) h).
Proof.
  intros Hkeep Hne. unfold _filter_impl.
  destruct (filter_tree_keep handler root Hkeep Hne ∅ h) as (P & -> & HM & HA).
  rewrite push_tb_down_unfold. destruct root as [i | i es].
  - rewrite HA by done. rewrite decide_False by set_solver.
    rewrite concat_tb_no_head. by rewrite set_traceback_get.
  - by rewrite decide_True by auto.
Qed.

(** X13: A catcher whose handler returns every exception it is given leaves no
    trace: [__exit__] returns [False], the exception that was propagating
    goes on, and no attribute of any object has changed. *)
Theorem catcher_keep_all_leaves_no_trace (e : exc) (h : heap) :
  (∀ L, L ∈ leaves e -> handler L = Some L) ->
  no_empty_aggregate e = true ->
  __exit__ handler raise_bookkeeping (Some e) h =
    (ExitReturn (Some false), log_calls (leaves e) h)
  ∧ with_exit handler raise_bookkeeping e h =
    (Propagates e, log_calls (leaves e) h).
Proof.
  intros Hkeep Hne. unfold with_exit, __exit__, MultiError_filter.
  rewrite (filter_keep_all e h Hkeep Hne). cbn [opt_is]. by rewrite is_refl.
Qed.

(** X14: A catcher whose handler returns [None] for every leaf swallows the
    exception: [__exit__] returns [True] and the block completes. *)
Theorem catcher_drop_all_completes (e : exc) (h : heap) :
  handler_outputs handler e = [] ->
  (__exit__ handler raise_bookkeeping (Some e) h).1 = ExitReturn (Some true)
  ∧ (with_exit handler raise_bookkeeping e h).1 = Completes.
Proof.
  intros Hout. unfold with_exit, __exit__, MultiError_filter, _filter_impl.
  pose proof (proj2 (filter_tree_None handler e ∅ h) Hout) as Hnone.
  destruct (filter_tree handler e ∅ h) as [[r P] h1]. cbn [fst] in Hnone.
  by subst r.
Qed.

End CatcherCases.

(** X15: When the catcher raises a new exception with CPython's [raise], that
    exception gets the frame of [__exit__] in front of its traceback, and
    its [__context__] is put back to what [filter] left. *)
Theorem catcher_raise_adds_exit_frame (handler : exc -> option exc)
    (here : tb_entry) (e f : exc) (h h1 : heap) :
  MultiError_filter handler e h = (Some f, h1) ->
  is_ f e = false ->
  let res := with_exit handler (cpython_raise here) e h in
  res.1 = Propagates f
  ∧ frames (get_traceback res.2 f) = here :: frames (get_traceback h1 f)
  ∧ get_context res.2 f = get_context h1 f.
Proof.
  intros Hf Hnot res. subst res. unfold with_exit, __exit__.
  rewrite Hf. cbn [opt_is]. rewrite Hnot. cbn [fst snd].
  split; [done |]. split.
  - unfold cpython_raise, get_traceback, set_context, set_traceback, alloc.
    destruct (h_context h1 !! id_of f); cbn [h_traceback];
      rewrite lookup_insert_eq; by rewrite frames_Some.
  - unfold get_context, set_context. cbn [h_context].
    destruct (h_context h1 !! id_of f);
      [apply lookup_insert_eq | apply lookup_delete_eq].
Qed.

(** ** Formatting *)

(** An induction principle that reaches the embedded exceptions. *)
Lemma TracebackException_embedded_ind (Q : TracebackException -> Prop) :
  (∀ e stack cause context suppress embedded,
      Forall Q embedded -> Q (TE e stack cause context suppress embedded)) ->
  ∀ te, Q te.
Proof.
  intros Hstep. fix IH 1. intros [e stack cause context suppress embedded].
  apply Hstep. induction embedded as [| t ts IHts]; constructor;
    [apply IH | exact IHts].
Qed.

Lemma format_no_chain_unfold e stack cause context suppress embedded :
  traceback_exception_format false (TE e stack cause context suppress embedded) =
  (match stack with [] => [] | _ :: _ => [TracebackHeader] end)
  ++ (StackLine <$> stack) ++ [ExceptionOnly e]
  ++ embedded_blocks 0 (traceback_exception_format false <$> embedded).
Proof.
  cbn [traceback_exception_format]. by rewrite format_embedded_blocks.
Qed.

Lemma embedded_blocks_Forall (Q : chunk -> Prop) k outs :
  (∀ n, Q (EmbeddedHeader n)) ->
  Forall (Forall (λ c, Q (Indent c))) outs ->
  Forall Q (embedded_blocks k outs).
Proof.
  intros Hhead Houts. revert k.
  induction Houts as [| out outs Hout _ IH]; intros k; [constructor |].
  cbn [embedded_blocks]. constructor; [apply Hhead |].
  apply Forall_app. split; [| apply IH].
  by apply Forall_fmap.
Qed.

(** X16: With [chain=False], no cause or context message is ever produced, in
    the output of the exception or of any embedded one. *)
Theorem format_without_chain_has_no_chain_message (te : TracebackException) :
  Forall (λ c, is_chain_message c = false)
         (traceback_exception_format false te).
Proof.
  induction te as [e stack cause context suppress embedded IH]
    using TracebackException_embedded_ind.
  rewrite format_no_chain_unfold. repeat (apply Forall_app; split).
  - destruct stack; repeat constructor.
  - apply Forall_fmap, Forall_true. done.
  - repeat constructor.
  - apply embedded_blocks_Forall; [done |].
    apply Forall_fmap. eapply Forall_impl; [exact IH |]. done.
Qed.

Lemma top_headers_app out1 out2 :
  top_headers (out1 ++ out2) = top_headers out1 ++ top_headers out2.
Proof. apply omap_app. Qed.

Lemma top_headers_Indent out : top_headers (Indent <$> out) = [].
Proof. induction out as [| c out IH]; [done | exact IH]. Qed.

Lemma top_headers_embedded_blocks k outs :
  top_headers (embedded_blocks k outs) = seq (k + 1) (length outs).
Proof.
  revert k. induction outs as [| out outs IH]; intros k; [done |].
  cbn [embedded_blocks length seq].
  change (top_headers (EmbeddedHeader (k + 1) :: ?l))
    with (k + 1 :: top_headers l).
  rewrite top_headers_app, top_headers_Indent, IH. reflexivity.
Qed.

(** X17: The headers of the embedded exceptions are numbered 1, 2, ... in the
    order of [embedded]; the headers inside an embedded exception are
    indented with it and do not count at the outer level. *)
Theorem format_numbers_embedded_from_1 (te : TracebackException) :
  top_headers (traceback_exception_format false te) =
  seq 1 (length (te_embedded te)).
Proof.
  destruct te as [e stack cause context suppress embedded].
  rewrite format_no_chain_unfold, !top_headers_app, top_headers_embedded_blocks.
  rewrite length_fmap. cbn [te_embedded].
  assert (top_headers (StackLine <$> stack) = []) as ->.
  { induction stack as [| s stack IH]; [done | exact IH]. }
  by destruct stack.
Qed.

Lemma init_te_exc n h x seen te s :
  traceback_exception_init n h x seen = Some (te, s) -> te_exc te = x.
Proof.
  destruct n as [| n]; [done |]. rewrite init_S. cbv beta zeta.
  destruct (capture_link _ _ _) as [[cause s1] |]; [| done]. cbn [mbind option_bind].
  destruct (capture_link _ _ _) as [[context s2] |]; [| done]. cbn [mbind option_bind].
  destruct (embed_children _ _ _ _) as [embedded |]; [| done]. cbn [mbind option_bind].
  by intros [= <- <-].
Qed.

Lemma format_has_description chain te :
  ExceptionOnly (te_exc te) ∈ traceback_exception_format chain te.
Proof.
  destruct te as [e stack cause context suppress embedded].
  cbn [traceback_exception_format te_exc].
  rewrite !elem_of_app. right. right. right. left. by left.
Qed.

Lemma embedded_blocks_elem k outs out c :
  out ∈ outs -> c ∈ out -> Indent c ∈ embedded_blocks k outs.
Proof.
  intros Hout Hc. revert k Hout. induction outs as [| o outs IH]; intros k Hout;
    [by apply elem_of_nil in Hout |].
  cbn [embedded_blocks]. right. apply elem_of_app.
  apply elem_of_cons in Hout as [-> | Hout].
  - left. by apply list_elem_of_fmap_2.
  - right. by apply IH.
Qed.

(** X18: With enough fuel for the objects in reach, the rendering of a
    [MultiError] at top level contains the indented description of every
    one of its members. *)
Theorem render_describes_every_member (U : gset nat) (h : heap) (i : nat)
    (es : list exc) (n : nat) :
  links_within U h ->
  (∀ j, j ∈ ids (MultiError i es) -> j ∈ U) ->
  height (MultiError i es) + size U ≤ n ->
  ∃ out, format_exception n h (MultiError i es) = Some out
         ∧ ∀ c, c ∈ es -> Indent (ExceptionOnly c) ∈ out.
Proof.
  intros Hlinks HU Hn.
  destruct (init_top_total U h Hlinks (MultiError i es) HU n Hn)
    as (te & s & E & _ & Hall).
  exists (traceback_exception_format true te). split.
  - unfold format_exception. by rewrite E.
  - intros c Hc. rewrite format_split. apply elem_of_app. right.
    cbn [children] in Hall.
    apply list_elem_of_lookup_1 in Hc as [k Hk].
    destruct (Forall2_lookup_l _ _ _ _ _ Hall Hk) as (t & Ht & s'' & Et).
    apply init_te_exc in Et as <-.
    eapply embedded_blocks_elem; [| apply format_has_description].
    apply list_elem_of_fmap_2. by eapply list_elem_of_lookup_2.
Qed.

(** ** Loading the module *)

(** X19: Loading the module is never silent: it installs something or warns;
    the warning about a custom [sys.excepthook] comes only when nothing
    else was done; and the only way to fail is a hook that bears apport's
    name without being apport's. *)
Theorem install_hooks_never_silent (env : environment) :
  match install_hooks env with
  | Some (actions, _) =>
      actions ≠ []
      ∧ (WarnCustomExcepthook ∈ actions -> actions = [WarnCustomExcepthook])
  | None => sys_excepthook env = OtherHook (Some "apport_excepthook"%string)
  end.
Proof.
  destruct env as [ipy [[|] |] [| | | [name |]]]; destruct ipy;
    unfold install_hooks; cbn -[decide];
    repeat case_decide; try done; try congruence;
    (split; [done | set_solver]).
Qed.

(** X20: [sys.excepthook] is replaced only when it still is the interpreter's
    own hook: any other hook is left in place. *)
Theorem install_hooks_replaces_only_default (env : environment) :
  match install_hooks env with
  | Some (actions, excepthook) =>
      excepthook = match sys_excepthook env with
                   | DefaultHook => TrioHook
                   | k => k
                   end
      ∧ (SetExcepthook ∈ actions ↔ sys_excepthook env = DefaultHook)
      ∧ (PatchApport ∈ actions ↔ sys_excepthook env = ApportHook)
  | None => True
  end.
Proof.
  destruct env as [ipy [[|] |] [| | | [name |]]]; destruct ipy;
    unfold install_hooks; cbn -[decide];
    repeat case_decide; try done; try congruence;
    (split; [done |]; split; split; try done; set_solver).
Qed.

(** ** filter: preserved subtrees and other contexts *)

Section FilterMore.
Variable handler : exc -> option exc.

Lemma visited_nodes_unfold P e :
  visited_nodes P e =
  if decide (id_of e ∈ P) then []
  else match e with
       | Atomic i => [i]
       | MultiError i es => i :: (es ≫= visited_nodes P)
       end.
Proof. by destruct e. Qed.

Lemma push_tb_down_unvisited P e :
  ∀ tb h i, i ∉ visited_nodes P e ->
    h_traceback (push_tb_down tb e P h) !! i = h_traceback h !! i.
Proof.
  induction e as [j | j es IH] using exc_tree_ind; intros tb h i;
    rewrite visited_nodes_unfold, push_tb_down_unfold; case_decide; try done;
    intros Hi.
  - destruct (concat_tb_result tb (get_traceback h (Atomic j)) h) as [_ Ht].
    destruct (concat_tb _ _ _) as [new_tb h1]. cbn [fst snd] in Ht.
    unfold set_traceback. cbn [h_traceback id_of].
    destruct new_tb;
      [rewrite lookup_insert_ne by set_solver | rewrite lookup_delete_ne by set_solver];
      by rewrite Ht.
  - destruct (concat_tb_result tb (get_traceback h (MultiError j es)) h) as [_ Ht].
    destruct (concat_tb _ _ _) as [new_tb h1]. cbn [fst snd] in Ht.
    apply not_elem_of_cons in Hi as [Hij Hi].
    unfold set_traceback. cbn [h_traceback id_of].
    rewrite lookup_delete_ne by done. rewrite <- Ht. clear Ht.
    revert h1. induction IH as [| c es Hc _ IHes]; intros h1; [done |].
    rewrite bind_cons in Hi. apply not_elem_of_app in Hi as [Hic Hies].
    cbn [push_children]. fold (push_children push_tb_down new_tb P).
    rewrite IHes by done. by apply Hc.
Qed.

(** X11: [filter] assigns [__traceback__] only at the nodes [push_tb_down] goes
    through: every object that is not one of them, such as the nodes of a
    subtree that came back unchanged, has the traceback it had. *)
Theorem filter_keeps_unvisited_tracebacks (root : exc) (h : heap) :
  ∀ i, i ∉ visited_nodes (filter_tree handler root ∅ h).1.2 root ->
       h_traceback (MultiError_filter handler root h).2 !! i = h_traceback h !! i.
Proof.
  intros i. unfold MultiError_filter, _filter_impl.
  pose proof (filter_tree_effect handler root ∅ h) as (_ & _ & Ht & _).
  destruct (filter_tree handler root ∅ h) as [[r P] h1]. cbn [fst snd] in *.
  intros Hi. by rewrite push_tb_down_unvisited, Ht.
Qed.

(** X12: [filter] assigns [__context__] only to the objects the handler
    returned in place of a leaf: every other object, a kept leaf or a
    [MultiError] included, has the context it had. *)
Theorem filter_keeps_other_contexts (root x : exc) (h : heap) :
  (∀ L n, L ∈ leaves root -> handler L = Some n -> is_ n L = false ->
          id_of n ≠ id_of x) ->
  get_context (MultiError_filter handler root h).2 x = get_context h x.
Proof.
  intros Hx. destruct (_filter_impl_effect handler root h) as [_ Hctx].
  unfold get_context, MultiError_filter. rewrite Hctx.
  by apply foldl_assign_context_keeps.
Qed.

End FilterMore.

(** ** Witnesses *)

Lemma filter_single_survivor_unwrapped_witness :
  (MultiError_filter keep_only_3 sample_nested sample_pair_heap).1 = Some (Atomic 3).
Proof.
  apply filter_single_survivor_unwrapped; reflexivity.
Defined.

(** Witness of [filter_preserves_well_formed]. *)
Lemma filter_preserves_well_formed_witness :
  well_formed (MultiError 1 [Atomic 2; Atomic 3]) = true.
Proof.
  apply (filter_preserves_well_formed drop_4 sample_nested
           (MultiError 1 [Atomic 2; Atomic 3]) sample_pair_heap).
  - reflexivity.
  - intros L n HL. apply leaves_atomic in HL as [i ->].
    destruct i as [| [| [| [| [| i]]]]]; cbn; intros [= <-]; reflexivity.
  - vm_compute. reflexivity.
Defined.

(** Witness of [filter_clears_exposed_aggregates]. *)
Lemma filter_clears_exposed_aggregates_witness :
  h_traceback (MultiError_filter replace_1_by_3 sample_pair sample_pair_heap).2 !! 0
  = None.
Proof.
  apply filter_clears_exposed_aggregates.
  - vm_compute. repeat constructor; set_solver.
  - vm_compute. left.
Defined.

(** Witness of [filter_result_leaves]. *)
Lemma filter_result_leaves_witness :
  from_option leaves []
    (MultiError_filter replace_1_by_3 sample_pair sample_pair_heap).1 =
  handler_outputs replace_1_by_3 sample_pair ≫= leaves.
Proof.
  apply filter_result_leaves.
  - vm_compute. repeat constructor; set_solver.
  - intros i Hi. vm_compute in Hi. vm_compute.
    repeat (apply elem_of_cons in Hi as [-> | Hi]; [lia |]).
    by apply elem_of_nil in Hi.
  - intros L n HL. vm_compute in HL.
    apply elem_of_cons in HL as [-> | HL].
    + intros [= <-]. right. vm_compute. set_solver.
    + apply list_elem_of_singleton in HL as ->. intros [= <-]. by left.
Defined.

(** Witness of [catcher_keep_all_leaves_no_trace]. *)
Lemma catcher_keep_all_leaves_no_trace_witness :
  with_exit Some (cpython_raise exit_entry) sample_tree sample_heap =
  (Propagates sample_tree, log_calls (leaves sample_tree) sample_heap).
Proof.
  apply catcher_keep_all_leaves_no_trace; [intros L _; reflexivity | reflexivity].
Defined.

(** Witness of [catcher_drop_all_completes]. *)
Lemma catcher_drop_all_completes_witness :
  (with_exit drop_all (cpython_raise exit_entry) sample_tree sample_heap).1
  = Completes.
Proof.
  apply catcher_drop_all_completes. reflexivity.
Defined.

(** Witness of [catcher_raise_adds_exit_frame]. *)
Lemma catcher_raise_adds_exit_frame_witness :
  frames (get_traceback
            (with_exit replace_1_by_3 (cpython_raise exit_entry)
               sample_pair sample_pair_heap).2
            (MultiError 11 [Atomic 3; Atomic 2]))
  = exit_entry
    :: frames (get_traceback
                 (MultiError_filter replace_1_by_3 sample_pair sample_pair_heap).2
                 (MultiError 11 [Atomic 3; Atomic 2])).
Proof.
  apply (catcher_raise_adds_exit_frame replace_1_by_3 exit_entry sample_pair
           (MultiError 11 [Atomic 3; Atomic 2]) sample_pair_heap
           (MultiError_filter replace_1_by_3 sample_pair sample_pair_heap).2).
  - vm_compute. reflexivity.
  - reflexivity.
Defined.

(** Witness of [render_describes_every_member]. *)
Lemma render_describes_every_member_witness :
  ∃ out, format_exception 5 sample_cause_heap sample_pair = Some out
         ∧ ∀ c, c ∈ [Atomic 1; Atomic 2] -> Indent (ExceptionOnly c) ∈ out.
Proof.
  apply (render_describes_every_member {[0; 1; 2]} sample_cause_heap 0
           [Atomic 1; Atomic 2] 5).
  - intros i c Hi [Hc | Hc] j Hj; simpl in Hc.
    + apply lookup_singleton_Some in Hc as [<- <-].
      apply list_elem_of_singleton in Hj as ->. set_solver.
    + by rewrite lookup_empty in Hc.
  - intros j Hj. simpl in Hj. set_solver.
  - vm_compute. lia.
Defined.

(** Witness of [filter_keeps_unvisited_tracebacks]. *)
Lemma filter_keeps_unvisited_tracebacks_witness :
  h_traceback (MultiError_filter drop_4 sample_nested sample_pair_heap).2 !! 1
  = h_traceback sample_pair_heap !! 1.
Proof.
  apply filter_keeps_unvisited_tracebacks. vm_compute.
  intros Hin. repeat (apply elem_of_cons in Hin as [[=] | Hin]).
  by apply elem_of_nil in Hin.
Defined.

(** Witness of [filter_keeps_other_contexts]. *)
Lemma filter_keeps_other_contexts_witness :
  get_context (MultiError_filter replace_1_by_3 sample_pair sample_pair_heap).2
    (Atomic 2)
  = get_context sample_pair_heap (Atomic 2).
Proof.
  apply filter_keeps_other_contexts.
  intros L n HL. apply leaves_atomic in HL as [i ->].
  destruct i as [| [| i]]; cbn [replace_1_by_3]; intros [= <-] Hnot.
  - by rewrite is_refl in Hnot.
  - cbn. lia.
  - by rewrite is_refl in Hnot.
Defined.
